(** * pymatgen fragment: regex text extraction and the spectrum plotter

    A shallow embedding of
      - [pymatgen/io/qchem_io/temp_utils.py]: [read_pattern] and
        [new_read_table_pattern];
      - [pymatgen/vis/plotters.py]: [SpectrumPlotter].

    Python exceptions are values of [exn]; a computation that may raise
    returns a [result].  The standard [re] module is an interface
    ([RegexEngine]) for the general statements, and a small backtracking
    engine ([Sre]) for the statements about literal patterns. *)

From Stdlib Require Import String Ascii List ZArith Bool Lia PeanoNat.
From Stdlib Require Import Permutation Sorted.
From Stdlib Require Floats.
Import ListNotations.

Local Open Scope string_scope.
Local Open Scope list_scope.

(** ** Exceptions and results *)

Inductive exn : Type :=
| ReError (msg : string)            (* re.error, with its message up to the
                                      arguments that end some messages *)
| NameError (name : string)         (* name '...' is not defined *)
| IndexError (msg : string)
| TypeError (msg : string)
| ValueError (msg : string)
| AttributeError (attr : string)
| ZeroDivisionError
| NotModelled (what : string).      (* syntax outside the engine below *)

Inductive result (A : Type) : Type :=
| Ok (a : A)
| Raise (e : exn).

Arguments Ok {A} a.
Arguments Raise {A} e.

Definition bind {A B : Type} (m : result A) (k : A -> result B) : result B :=
  match m with
  | Ok a => k a
  | Raise e => Raise e
  end.

Notation "x <- m ;; k" := (bind m (fun x => k))
  (at level 61, m at next level, right associativity).

(** A comprehension [[f(i) for i in xs]] whose body may raise: elements are
    evaluated left to right and the first exception ends the evaluation. *)
Fixpoint mapM {A B : Type} (f : A -> result B) (xs : list A)
  : result (list B) :=
  match xs with
  | [] => Ok []
  | x :: xs' =>
      y <- f x ;;
      ys <- mapM f xs' ;;
      Ok (y :: ys)
  end.

(** ** Python dictionaries with string keys

    Iteration follows insertion order, and assigning to a key that is
    present keeps its position. *)

Definition dict (V : Type) : Type := list (string * V).

Fixpoint dict_get {V : Type} (d : dict V) (k : string) : option V :=
  match d with
  | [] => None
  | (k', v) :: d' => if String.eqb k' k then Some v else dict_get d' k
  end.

Fixpoint dict_set {V : Type} (d : dict V) (k : string) (v : V) : dict V :=
  match d with
  | [] => [(k, v)]
  | (k', v') :: d' =>
      if String.eqb k' k then (k', v) :: d' else (k', v') :: dict_set d' k v
  end.

Definition dict_keys {V : Type} (d : dict V) : list string := map fst d.

(** ** The interface of the [re] module *)

Definition MULTILINE : Z := 8.
Definition DOTALL : Z := 16.

(** A match object: its span, the matched text (group 0) and the values of
    groups 1..n, [None] for a group that took no part in the match. *)
Record rmatch : Type := {
  m_span : nat * nat;
  m_group0 : string;
  m_groups : list (option string)
}.

Class RegexEngine : Type := {
  pattern : Type;
  re_compile : string -> Z -> result pattern;
  (* Pattern.groupindex: the named groups and their numbers *)
  groupindex : pattern -> list (string * nat);
  (* Pattern.finditer, forced: the non-overlapping matches, left to right *)
  finditer : pattern -> string -> list rmatch
}.

(** [match.groups()] *)
Definition groups (m : rmatch) : list (option string) := m_groups m.

(** [match.group(i)] for a group number *)
Definition group_num (m : rmatch) (i : nat) : result (option string) :=
  match i with
  | O => Ok (Some (m_group0 m))
  | S j =>
      match nth_error (m_groups m) j with
      | Some v => Ok v
      | None => Raise (IndexError "no such group")
      end
  end.

Section MatchObjects.
Context {E : RegexEngine}.

(** [match.group(name)] *)
Definition group (p : pattern) (m : rmatch) (name : string)
  : result (option string) :=
  match dict_get (groupindex p) name with
  | Some i => group_num m i
  | None => Raise (IndexError "no such group")
  end.

(** [match.groupdict()]: one entry per named group of the pattern. *)
Definition groupdict (p : pattern) (m : rmatch) : dict (option string) :=
  map (fun ni : string * nat =>
         (fst ni, match group_num m (snd ni) with
                  | Ok v => v
                  | Raise _ => None
                  end))
      (groupindex p).
End MatchObjects.

(** ** temp_utils.py *)

Module TempUtils.

(** The names bound at module level by lines 1-20 of [temp_utils.py]: the
    imports and the two functions. *)
Definition module_globals : list string :=
  ["re"; "logging"; "os"; "zopen"; "MSONable"; "regrep";
   "read_pattern"; "new_read_table_pattern"].

(** The built-in names the module's functions refer to. *)
Definition builtins : list string :=
  ["str"; "int"; "float"; "len"; "list"; "dict"; "tuple"; "set"; "bool";
   "None"; "True"; "False"; "print"; "range"; "enumerate"; "sorted";
   "hasattr"; "getattr"; "type"; "ValueError"; "isinstance"; "open"].

(** Looking up a global name from inside a function body: the module's
    globals, then the built-ins, else [NameError]. *)
Definition lookup_global (name : string) : result unit :=
  if existsb (String.eqb name) (module_globals ++ builtins)
  then Ok tt
  else Raise (NameError name).

(** The value a table extraction returns: a row is a list of values or a
    dict of values, a table is a list of rows. *)
Inductive row (V : Type) : Type :=
| RowList (vs : list V)
| RowDict (kvs : dict V).
Arguments RowList {V} vs.
Arguments RowDict {V} kvs.

Definition table (V : Type) : Type := list (row V).

(** [retained_data]: the last table, or the list of all tables. *)
Inductive retained (V : Type) : Type :=
| OneTable (t : table V)
| Tables (ts : list (table V)).
Arguments OneTable {V} t.
Arguments Tables {V} ts.

(** What [new_read_table_pattern] returns: [retained_data] itself, or the
    dict [data] holding it under [attribute_name]. *)
Inductive retval (V : Type) : Type :=
| Bare (r : retained V)
| Data (data : dict (retained V)).
Arguments Bare {V} r.
Arguments Data {V} data.

(** [xs[-1]] *)
Definition last_item {A : Type} (xs : list A) : result A :=
  match rev xs with
  | x :: _ => Ok x
  | [] => Raise (IndexError "list index out of range")
  end.

Section Functions.
Context {E : RegexEngine}.
Context {V : Type}.
(** [postprocess] receives a group value, which is [None] for a group
    that took no part in the match, and may raise. *)
Variable postprocess : option string -> result V.

(** Line 11: the dict comprehension compiling every pattern. *)
Fixpoint compile_patterns (items : list (string * string))
                          (compiled : dict pattern) : result (dict pattern) :=
  match items with
  | [] => Ok compiled
  | (key, pat) :: items' =>
      c <- re_compile pat (Z.lor MULTILINE DOTALL) ;;
      compile_patterns items' (dict_set compiled key c)
  end.

(** [matches[key].append(rec)] on a [defaultdict(list)]. *)
Definition defaultdict_append (matches : dict (list (list V)))
           (key : string) (rec : list V) : dict (list (list V)) :=
  match dict_get matches key with
  | Some recs => dict_set matches key (recs ++ [rec])
  | None => dict_set matches key [rec]
  end.

(** [matches[key]] on a [defaultdict(list)], read only. *)
Definition defaultdict_get (matches : dict (list (list V)))
           (key : string) : list (list V) :=
  match dict_get matches key with
  | Some recs => recs
  | None => []
  end.

(** Lines 14-17: the loop over the matches of one pattern. *)
Fixpoint scan_matches (terminate_on_match : bool) (key : string)
         (ms : list rmatch) (matches : dict (list (list V)))
  : result (dict (list (list V))) :=
  match ms with
  | [] => Ok matches
  | m :: ms' =>
      rec <- mapM postprocess (groups m) ;;
      let matches' := defaultdict_append matches key rec in
      if terminate_on_match then Ok matches'
      else scan_matches terminate_on_match key ms' matches'
  end.

(** Lines 13-17: the loop over the compiled patterns. *)
Fixpoint scan_patterns (text_str : string) (terminate_on_match : bool)
         (compiled : dict pattern) (matches : dict (list (list V)))
  : result (dict (list (list V))) :=
  match compiled with
  | [] => Ok matches
  | (key, p) :: compiled' =>
      matches' <- scan_matches terminate_on_match key
                               (finditer p text_str) matches ;;
      scan_patterns text_str terminate_on_match compiled' matches'
  end.

Definition read_pattern (text_str : string) (patterns : dict string)
           (terminate_on_match : bool) : result (dict (list (list V))) :=
  compiled <- compile_patterns patterns [] ;;
  (* line 12: collections.defaultdict(list) *)
  _ <- lookup_global "collections" ;;
  let matches := [] in
  matches <- scan_patterns text_str terminate_on_match compiled matches ;;
  Ok matches.

(** Line 61 *)
Definition table_pattern_text
           (header_pattern row_pattern footer_pattern : string) : string :=
  header_pattern ++ "\s*(?P<table_body>(?:" ++ row_pattern ++ ")+)\s*"
                 ++ footer_pattern.

(** Lines 70-74: one row. *)
Definition process_line (rp : pattern) (ml : rmatch) : result (row V) :=
  let d := groupdict rp ml in
  if (0 <? List.length d)%nat then
    kvs <- mapM (fun kv : string * option string =>
                   v <- postprocess (snd kv) ;; Ok (fst kv, v)) d ;;
    Ok (RowDict kvs)
  else
    vs <- mapM postprocess (groups ml) ;;
    Ok (RowList vs).

(** Lines 67-75: one table.  [finditer] on [None] is a [TypeError]. *)
Definition process_table (table_pattern rp : pattern) (mt : rmatch)
  : result (table V) :=
  body <- group table_pattern mt "table_body" ;;
  match body with
  | None => Raise (TypeError "expected string or bytes-like object")
  | Some table_body_text =>
      mapM (process_line rp) (finditer rp table_body_text)
  end.

Definition new_read_table_pattern (text_str : string)
           (header_pattern row_pattern footer_pattern : string)
           (attribute_name : option string) (last_one_only : bool)
  : result (retval V) :=
  table_pattern <-
    re_compile (table_pattern_text header_pattern row_pattern footer_pattern)
               (Z.lor MULTILINE DOTALL) ;;
  rp <- re_compile row_pattern 0%Z ;;
  let data := [] in
  tables <- mapM (process_table table_pattern rp)
                 (finditer table_pattern text_str) ;;
  retained_data <- (if last_one_only
                    then t <- last_item tables ;; Ok (OneTable t)
                    else Ok (Tables tables)) ;;
  match attribute_name with
  | Some name => Ok (Data (dict_set data name retained_data))
  | None => Ok (Bare retained_data)
  end.
End Functions.

(** The default [postprocess=str]. *)
Definition py_str (v : option string) : result string :=
  match v with
  | Some s => Ok s
  | None => Ok "None"
  end.

End TempUtils.

(** ** A backtracking engine for a subset of [re]

    The subset: literals, [.], [^], [$], the escapes [\d \D \s \S \w \W]
    and [\a \f \n \r \t \v], escaped punctuation, character sets, groups
    (capturing, named [(?P<name>...)], non-capturing [(?:...)]),
    alternation and the quantifiers [* + ?] with their lazy forms.  Other
    syntax raises [NotModelled].  A character is a code point below 256. *)

Module Sre.

Local Open Scope char_scope.
Local Open Scope nat_scope.

Definition code (c : ascii) : nat := nat_of_ascii c.

Definition between (lo hi n : nat) : bool := (lo <=? n) && (n <=? hi).

Definition is_digit (c : ascii) : bool := between 48 57 (code c).

Definition is_space (c : ascii) : bool :=
  let n := code c in
  between 9 13 n || between 28 32 n || (n =? 133) || (n =? 160).

Definition is_ascii_letter (c : ascii) : bool :=
  between 65 90 (code c) || between 97 122 (code c).

Definition is_word (c : ascii) : bool :=
  let n := code c in
  is_digit c || is_ascii_letter c || (n =? 95)
  || (n =? 170) || (n =? 178) || (n =? 179) || (n =? 181) || (n =? 185)
  || (n =? 186) || between 188 190 n || between 192 214 n
  || between 216 246 n || between 248 255 n.

Inductive category : Type := CatDigit | CatSpace | CatWord.

Definition in_category (cat : category) (c : ascii) : bool :=
  match cat with
  | CatDigit => is_digit c
  | CatSpace => is_space c
  | CatWord => is_word c
  end.

Inductive set_item : Type :=
| SChar (c : ascii)
| SRange (lo hi : ascii)
| SCat (negate : bool) (cat : category).

Definition item_matches (it : set_item) (c : ascii) : bool :=
  match it with
  | SChar c' => Ascii.eqb c' c
  | SRange lo hi => between (code lo) (code hi) (code c)
  | SCat negate cat => xorb negate (in_category cat c)
  end.

Inductive node : Type :=
| Eps
| Chr (c : ascii)
| AnyChar
| InSet (negate : bool) (items : list set_item)
| Bol
| Eol
| Seq (a b : node)
| Alt (a b : node)
| Rep (mn : nat) (mx : option nat) (greedy : bool) (a : node)
| Grp (idx : nat) (a : node)
| NonCap (a : node).

(** *** Parsing *)

Record pstate : Type := {
  ngroups : nat;
  names : list (string * nat)
}.

Definition escapes (c : ascii) : option ascii :=
  match c with
  | "a" => Some (ascii_of_nat 7)
  | "b" => Some (ascii_of_nat 8)
  | "f" => Some (ascii_of_nat 12)
  | "n" => Some (ascii_of_nat 10)
  | "r" => Some (ascii_of_nat 13)
  | "t" => Some (ascii_of_nat 9)
  | "v" => Some (ascii_of_nat 11)
  | "\" => Some "\"
  | _ => None
  end.

Definition categories (c : ascii) : option set_item :=
  match c with
  | "d" => Some (SCat false CatDigit)
  | "D" => Some (SCat true CatDigit)
  | "s" => Some (SCat false CatSpace)
  | "S" => Some (SCat true CatSpace)
  | "w" => Some (SCat false CatWord)
  | "W" => Some (SCat true CatWord)
  | _ => None
  end.

Definition bad_escape (c : ascii) : exn :=
  ReError (String.append "bad escape \" (String c EmptyString)).

Definition unmodelled_escape (c : ascii) : bool :=
  is_digit c
  || existsb (Ascii.eqb c) ["x"; "u"; "U"; "N"; "A"; "Z"; "B"].

(** [_escape]: an escape outside a character set, [c] is the character
    after the backslash. *)
Definition escape (c : ascii) : result node :=
  match categories c with
  | Some it => Ok (InSet false [it])
  | None =>
      if Ascii.eqb c "b" then Raise (NotModelled "\b")
      else match escapes c with
           | Some l => Ok (Chr l)
           | None =>
               if unmodelled_escape c then Raise (NotModelled "escape")
               else if is_ascii_letter c then Raise (bad_escape c)
               else Ok (Chr c)
           end
  end.

(** [_class_escape]: an escape inside a character set. *)
Definition class_escape (c : ascii) : result set_item :=
  match escapes c with
  | Some l => Ok (SChar l)
  | None =>
      match categories c with
      | Some it => Ok it
      | None =>
          if is_digit c || existsb (Ascii.eqb c) ["x"; "u"; "U"; "N"]
          then Raise (NotModelled "escape")
          else if is_ascii_letter c then Raise (bad_escape c)
          else Ok (SChar c)
      end
  end.

(** The tokens of [sre_parse.Tokenizer]: a character, or a backslash with
    the character after it.  A backslash that ends the pattern is no
    token; the tokenizer raises when it comes to read it, which is as soon
    as the token before it is taken. *)
Inductive token : Type :=
| TChar (c : ascii)
| TEscape (c : ascii)
| TBadEnd.

Fixpoint tokenize (src : list ascii) : list token :=
  match src with
  | [] => []
  | "\" :: [] => [TBadEnd]
  | "\" :: c :: src' => TEscape c :: tokenize src'
  | c :: src' => TChar c :: tokenize src'
  end.

(** [Tokenizer.__next]: reading the token that follows. *)
Definition lookahead (ts : list token) : result (list token) :=
  match ts with
  | TBadEnd :: _ => Raise (ReError "bad escape (end of pattern)")
  | _ => Ok ts
  end.

(** [source.match(c)] *)
Definition sourcematch (c : ascii) (ts : list token)
  : result (bool * list token) :=
  match ts with
  | TChar c' :: ts' =>
      if Ascii.eqb c' c then ts'' <- lookahead ts' ;; Ok (true, ts'')
      else Ok (false, ts)
  | _ => Ok (false, ts)
  end.

(** The code of one member of a character set, from its token. *)
Definition class_code (t : token) : result set_item :=
  match t with
  | TEscape c => class_escape c
  | TChar c => Ok (SChar c)
  | TBadEnd => Raise (ReError "bad escape (end of pattern)")
  end.

(** A token that is the character [c]. *)
Definition is_char (c : ascii) (t : token) : bool :=
  match t with
  | TChar c' => Ascii.eqb c' c
  | _ => false
  end.

(** The body of a character set, after [[] and an optional [^]. *)
Fixpoint parse_set (ts : list token) (acc : list set_item)
  : result (list set_item * list token) :=
  match ts with
  | [] => Raise (ReError "unterminated character set")
  | this :: ts0 =>
      ts1 <- lookahead ts0 ;;
      if is_char "]" this && negb (Nat.eqb (List.length acc) 0)
      then Ok (rev acc, ts1)
      else
        code1 <- class_code this ;;
        match ts0 with
        | dash :: ts2 =>
            if is_char "-" dash then
              match ts2 with
              | [] => Raise (ReError "unterminated character set")
              | that :: ts3 =>
                  _ <- lookahead ts2 ;;
                  _ <- lookahead ts3 ;;
                  if is_char "]" that
                  then Ok (rev (SChar "-" :: code1 :: acc), ts3)
                  else
                    code2 <- class_code that ;;
                    match code1, code2 with
                    | SChar lo, SChar hi =>
                        if code hi <? code lo
                        then Raise (ReError "bad character range")
                        else parse_set ts3 (SRange lo hi :: acc)
                    | _, _ => Raise (ReError "bad character range")
                    end
              end
            else parse_set ts0 (code1 :: acc)
        | [] => parse_set ts0 (code1 :: acc)
        end
  end.

Definition is_ident_start (c : ascii) : bool :=
  is_ascii_letter c || Ascii.eqb c "_".

Definition is_ident_char (c : ascii) : bool :=
  is_ident_start c || is_digit c.

(** [source.getuntil(">", "group name")] *)
Fixpoint getuntil_gt (ts : list token) (acc : list ascii)
  : result (list ascii * list token) :=
  match ts with
  | [] =>
      match acc with
      | [] => Raise (ReError "missing group name")
      | _ => Raise (ReError "missing >, unterminated name")
      end
  | t :: ts' =>
      _ <- lookahead ts' ;;
      match t with
      | TChar c =>
          if Ascii.eqb c ">" then
            match acc with
            | [] => Raise (ReError "missing group name")
            | _ => Ok (rev acc, ts')
            end
          else getuntil_gt ts' (c :: acc)
      | TEscape c => getuntil_gt ts' (c :: "\" :: acc)
      | TBadEnd => Raise (ReError "bad escape (end of pattern)")
      end
  end.

(** [source.checkgroupname] *)
Definition check_group_name (name : list ascii) : result unit :=
  match name with
  | [] => Raise (ReError "missing group name")
  | c :: cs =>
      if existsb (fun a => 128 <=? code a) name
      then Raise (NotModelled "non-ASCII group name")
      else if is_ident_start c && forallb is_ident_char cs then Ok tt
      else Raise (ReError "bad character in group name")
  end.

(** [state.opengroup(name)] *)
Definition opengroup (name : option string) (st : pstate)
  : result (nat * pstate) :=
  let gid := S (ngroups st) in
  match name with
  | None => Ok (gid, {| ngroups := gid; names := names st |})
  | Some n =>
      match dict_get (names st) n with
      | Some _ => Raise (ReError "redefinition of group name")
      | None => Ok (gid, {| ngroups := gid; names := names st ++ [(n, gid)] |})
      end
  end.

Definition seq_of (items : list node) : node :=
  fold_left (fun acc it => Seq it acc) items Eps.

Definition is_repeat (n : node) : bool :=
  match n with Rep _ _ _ _ => true | _ => false end.

Definition is_at (n : node) : bool :=
  match n with Bol | Eol => true | _ => false end.

Definition repeat_bounds (c : ascii) : option (nat * option nat) :=
  match c with
  | "*" => Some (0, None)
  | "+" => Some (1, None)
  | "?" => Some (0, Some 1)
  | _ => None
  end.

(** What follows [(]. *)
Inductive group_kind : Type :=
| Capturing (name : option string)
| NonCapturing.

Definition unmodelled_extension (c : ascii) : bool :=
  existsb (Ascii.eqb c)
          ["="; "!"; "<"; "("; "#"; ">"; "-";
           "a"; "i"; "L"; "m"; "s"; "u"; "x"].

(** The part of a group between [(] and its contents. *)
Definition group_header (ts : list token)
  : result (group_kind * list token) :=
  q <- sourcematch "?" ts ;;
  match q with
  | (false, _) => Ok (Capturing None, ts)
  | (true, []) => Raise (ReError "unexpected end of pattern")
  | (true, char :: ts0) =>
      ts1 <- lookahead ts0 ;;
      if is_char ":" char then Ok (NonCapturing, ts1)
      else if is_char "P" char then
        lt <- sourcematch "<" ts1 ;;
        match lt with
        | (true, ts2) =>
            r <- getuntil_gt ts2 [] ;;
            let (name, ts3) := r in
            _ <- check_group_name name ;;
            Ok (Capturing (Some (string_of_list_ascii name)), ts3)
        | (false, _) =>
            match ts1 with
            | [] => Raise (ReError "unexpected end of pattern")
            | t :: ts2 =>
                if is_char "=" t then Raise (NotModelled "group extension")
                else
                  _ <- lookahead ts2 ;;
                  Raise (ReError "unknown extension ?P")
            end
        end
      else
        match char with
        | TChar c =>
            if unmodelled_extension c
            then Raise (NotModelled "group extension")
            else Raise (ReError "unknown extension ?")
        | _ => Raise (ReError "unknown extension ?")
        end
  end.

Definition out_of_fuel {A : Type} : result A :=
  Raise (NotModelled "pattern nesting").

(** [_parse_sub] and [_parse]: alternatives, and the items of one
    alternative ([items] holds them latest first). *)
Fixpoint parse_sub (fuel : nat) (ts : list token) (st : pstate)
  : result (node * list token * pstate) :=
  match fuel with
  | O => out_of_fuel
  | S fuel' =>
      r <- parse_items fuel' ts st [] ;;
      let '(items, ts1, st1) := r in
      bar <- sourcematch "|" ts1 ;;
      match bar with
      | (true, ts2) =>
          r' <- parse_sub fuel' ts2 st1 ;;
          let '(other, ts3, st3) := r' in
          Ok (Alt (seq_of items) other, ts3, st3)
      | (false, _) => Ok (seq_of items, ts1, st1)
      end
  end
with parse_items (fuel : nat) (ts : list token) (st : pstate)
                 (items : list node)
  : result (list node * list token * pstate) :=
  match fuel with
  | O => out_of_fuel
  | S fuel' =>
      match ts with
      | [] => Ok (items, ts, st)
      | this :: ts0 =>
          if is_char "|" this || is_char ")" this then Ok (items, ts, st)
          else
            ts' <- lookahead ts0 ;;
            match this with
            | TBadEnd => Raise (ReError "bad escape (end of pattern)")
            | TEscape c =>
                n <- escape c ;;
                parse_items fuel' ts' st (n :: items)
            | TChar c =>
                if Ascii.eqb c "[" then
                  neg <- sourcematch "^" ts' ;;
                  let (negate, ts1) := neg in
                  r <- parse_set ts1 [] ;;
                  let (set, ts2) := r in
                  parse_items fuel' ts2 st (InSet negate set :: items)
                else if Ascii.eqb c "{" then Raise (NotModelled "{")
                else if Ascii.eqb c "."
                then parse_items fuel' ts' st (AnyChar :: items)
                else if Ascii.eqb c "^"
                then parse_items fuel' ts' st (Bol :: items)
                else if Ascii.eqb c "$"
                then parse_items fuel' ts' st (Eol :: items)
                else if Ascii.eqb c "(" then
                  h <- group_header ts' ;;
                  let (kind, ts1) := h in
                  g <- match kind with
                       | NonCapturing => Ok (None, st)
                       | Capturing name =>
                           o <- opengroup name st ;;
                           Ok (Some (fst o), snd o)
                       end ;;
                  let (group, st1) := g in
                  r <- parse_sub fuel' ts1 st1 ;;
                  let '(p, ts2, st2) := r in
                  close <- sourcematch ")" ts2 ;;
                  match close with
                  | (true, ts3) =>
                      parse_items fuel' ts3 st2
                                  (match group with
                                   | Some gid => Grp gid p
                                   | None => NonCap p
                                   end :: items)
                  | (false, _) =>
                      Raise (ReError "missing ), unterminated subpattern")
                  end
                else
                  match repeat_bounds c with
                  | Some (mn, mx) =>
                      match items with
                      | [] => Raise (ReError "nothing to repeat")
                      | item :: items' =>
                          if is_at item
                          then Raise (ReError "nothing to repeat")
                          else if is_repeat item
                          then Raise (ReError "multiple repeat")
                          else
                            lazy <- sourcematch "?" ts' ;;
                            match lazy with
                            | (true, ts1) =>
                                parse_items fuel' ts1 st
                                            (Rep mn mx false item :: items')
                            | (false, _) =>
                                if match ts' with
                                   | t :: _ => is_char "+" t
                                   | [] => false
                                   end
                                then Raise (NotModelled "possessive quantifier")
                                else parse_items fuel' ts' st
                                                 (Rep mn mx true item :: items')
                            end
                      end
                  | None => parse_items fuel' ts' st (Chr c :: items)
                  end
            end
      end
  end.

Record compiled : Type := {
  p_node : node;
  p_groups : nat;
  p_groupindex : list (string * nat);
  p_flags : Z
}.

(** The flags the matcher below implements. *)
Definition flags_modelled (flags : Z) : bool :=
  Z.eqb (Z.land flags (Z.lnot (Z.lor MULTILINE DOTALL))) 0.

(** [re.compile]: [sre_parse.parse] up to the check that nothing is left
    of the pattern. *)
Definition compile (pat : string) (flags : Z) : result compiled :=
  if negb (flags_modelled flags) then Raise (NotModelled "flags")
  else
    ts <- lookahead (tokenize (list_ascii_of_string pat)) ;;
    r <- parse_sub (2 * List.length ts + 2) ts
                   {| ngroups := 0; names := [] |} ;;
    let '(p, rest, st) := r in
    match rest with
    | [] => Ok {| p_node := p; p_groups := ngroups st;
                  p_groupindex := names st; p_flags := flags |}
    | _ => Raise (ReError "unbalanced parenthesis")
    end.

(** *** Matching *)

Record mstate : Type := {
  pos : nat;                        (* characters consumed so far *)
  prev : option ascii;              (* the character before [pos] *)
  rest : list ascii;                (* the text from [pos] on *)
  caps : list (nat * (nat * nat))   (* group spans, latest first *)
}.

Definition advance (s : mstate) (c : ascii) (rest' : list ascii) : mstate :=
  {| pos := S (pos s); prev := Some c; rest := rest'; caps := caps s |}.

Definition set_cap (idx start : nat) (s : mstate) : mstate :=
  {| pos := pos s; prev := prev s; rest := rest s;
     caps := (idx, (start, pos s)) :: caps s |}.

Definition newline : ascii := ascii_of_nat 10.

Definition multiline (flags : Z) : bool := Z.testbit flags 3.
Definition dotall (flags : Z) : bool := Z.testbit flags 4.

Definition at_bol (flags : Z) (s : mstate) : bool :=
  match prev s with
  | None => true
  | Some c => multiline flags && Ascii.eqb c newline
  end.

Definition at_eol (flags : Z) (s : mstate) : bool :=
  match rest s with
  | [] => true
  | c :: [] => Ascii.eqb c newline
  | c :: _ => multiline flags && Ascii.eqb c newline
  end.

Definition one_char (ok : ascii -> bool) (s : mstate)
           (k : mstate -> option mstate) : option mstate :=
  match rest s with
  | c :: rest' => if ok c then k (advance s c rest') else None
  | [] => None
  end.

Definition below (cnt : nat) (mx : option nat) : bool :=
  match mx with
  | None => true
  | Some n => cnt <? n
  end.

Definition moved (last : option nat) (s : mstate) : bool :=
  match last with
  | None => true
  | Some p => negb (p =? pos s)
  end.

(** [run flags r s k]: match [r] at [s], then the continuation [k];
    the first success in the engine's order of preference.  A repeat
    counts its iterations in [cnt]; [last] is the position at which the
    previous optional iteration began, and an iteration that does not
    move past it is not followed by another one. *)
Fixpoint run (flags : Z) (r : node) (s : mstate)
         (k : mstate -> option mstate) {struct r} : option mstate :=
  match r with
  | Eps => k s
  | Chr c => one_char (Ascii.eqb c) s k
  | AnyChar =>
      one_char (fun c => dotall flags || negb (Ascii.eqb c newline)) s k
  | InSet negate items =>
      one_char
        (fun c => xorb negate (existsb (fun it => item_matches it c) items))
        s k
  | Bol => if at_bol flags s then k s else None
  | Eol => if at_eol flags s then k s else None
  | Seq a b => run flags a s (fun s' => run flags b s' k)
  | Alt a b =>
      match run flags a s k with
      | Some s' => Some s'
      | None => run flags b s k
      end
  | Grp idx a => run flags a s (fun s' => k (set_cap idx (pos s) s'))
  | NonCap a => run flags a s k
  | Rep mn mx greedy a =>
      (fix until (fuel cnt : nat) (last : option nat) (s : mstate)
           {struct fuel} : option mstate :=
         match fuel with
         | O => None
         | S fuel' =>
             if cnt <? mn then
               run flags a s (fun s' => until fuel' (S cnt) last s')
             else if greedy then
               match (if below cnt mx && moved last s
                      then run flags a s
                             (fun s' => until fuel' (S cnt) (Some (pos s)) s')
                      else None) with
               | Some s' => Some s'
               | None => k s
               end
             else
               match k s with
               | Some s' => Some s'
               | None =>
                   if below cnt mx && moved last s
                   then run flags a s
                          (fun s' => until fuel' (S cnt) (Some (pos s)) s')
                   else None
               end
         end) (mn + List.length (rest s) + 3) 0 None s
  end.

(** One attempt at position [pos s]; with [must_advance] an empty match
    is refused. *)
Definition match_at (p : compiled) (s : mstate) (must_advance : bool)
  : option mstate :=
  run (p_flags p) (p_node p) s
      (fun s' => if must_advance && (pos s' =? pos s) then None else Some s').

Definition substring (text : list ascii) (start stop : nat) : string :=
  string_of_list_ascii (firstn (stop - start) (skipn start text)).

Fixpoint cap_lookup (cs : list (nat * (nat * nat))) (idx : nat)
  : option (nat * nat) :=
  match cs with
  | [] => None
  | (i, sp) :: cs' => if i =? idx then Some sp else cap_lookup cs' idx
  end.

Definition group_value (text : list ascii) (s : mstate) (idx : nat)
  : option string :=
  match cap_lookup (caps s) idx with
  | Some (a, b) => Some (substring text a b)
  | None => None
  end.

Definition mk_match (p : compiled) (text : list ascii) (start : nat)
           (s : mstate) : rmatch :=
  {| m_span := (start, pos s);
     m_group0 := substring text start (pos s);
     m_groups := map (group_value text s) (seq 1 (p_groups p)) |}.

(** The scanner behind [finditer]: after a match the next search starts
    where it ended, and must advance if the match was empty; after a
    failed attempt the next one starts one character further. *)
Fixpoint scan_from (fuel : nat) (p : compiled) (text : list ascii)
         (s : mstate) (must_advance : bool) : list rmatch :=
  match fuel with
  | O => []
  | S fuel' =>
      let s0 :=
        {| pos := pos s; prev := prev s; rest := rest s; caps := [] |} in
      match match_at p s0 must_advance with
      | Some s' =>
          mk_match p text (pos s) s'
            :: scan_from fuel' p text s' (pos s' =? pos s)
      | None =>
          match rest s with
          | [] => []
          | c :: rest' => scan_from fuel' p text (advance s0 c rest') false
          end
      end
  end.

Definition sre_finditer (p : compiled) (text_str : string) : list rmatch :=
  let text := list_ascii_of_string text_str in
  scan_from (2 * List.length text + 3) p text
         {| pos := 0; prev := None; rest := text; caps := [] |} false.

#[export] Instance engine : RegexEngine := {|
  pattern := compiled;
  re_compile := compile;
  groupindex := p_groupindex;
  finditer := sre_finditer
|}.

End Sre.

(** ** The built-in [int] as a [postprocess] *)

Module PyInt.
Local Open Scope char_scope.

(** The blanks [int] skips around the digits: the ASCII ones of C's
    [isspace], and the other code points that are spaces. *)
Definition is_blank (c : ascii) : bool :=
  let n := Sre.code c in
  Sre.between 9 13 n || Nat.eqb n 32 || Nat.eqb n 133 || Nat.eqb n 160.

Fixpoint lstrip (cs : list ascii) : list ascii :=
  match cs with
  | c :: cs' => if is_blank c then lstrip cs' else cs
  | [] => []
  end.

Definition strip (cs : list ascii) : list ascii :=
  rev (lstrip (rev (lstrip cs))).

Definition not_a_string : exn :=
  TypeError
    "int() argument must be a string, a bytes-like object or a real number".

Definition invalid_literal : exn :=
  ValueError "invalid literal for int() with base 10".

(** Decimal digits, single underscores allowed between digits.
    [after_digit] tells whether the previous character was a digit. *)
Fixpoint digits (cs : list ascii) (after_digit : bool) (acc : Z) : result Z :=
  match cs with
  | [] => if after_digit then Ok acc else Raise invalid_literal
  | "_" :: cs' =>
      if after_digit then digits cs' false acc else Raise invalid_literal
  | c :: cs' =>
      if Sre.is_digit c
      then digits cs' true (10 * acc + Z.of_nat (Sre.code c - 48))%Z
      else Raise invalid_literal
  end.

(** [int(v)] for a group value. *)
Definition int (v : option string) : result Z :=
  match v with
  | None => Raise not_a_string
  | Some s =>
      match strip (list_ascii_of_string s) with
      | "-" :: cs => n <- digits cs false 0%Z ;; Ok (- n)%Z
      | "+" :: cs => digits cs false 0%Z
      | cs => digits cs false 0%Z
      end
  end.
End PyInt.

Definition nl : string := String (ascii_of_nat 10) EmptyString.


(** ** plotters.py *)

(** The arithmetic of the coordinates ([float] and numpy's element type).
    No law is assumed of it here; a statement that needs one says so. *)
Class Floats : Type := {
  num : Type;
  zero : num;                 (* 0.0 *)
  add : num -> num -> num;
  mul : num -> num -> num;
  of_int : nat -> num         (* the conversion of [idx] in [yshift * idx] *)
}.

#[export] Instance Z_floats : Floats := {|
  num := Z;
  zero := 0%Z;
  add := Z.add;
  mul := Z.mul;
  of_int := Z.of_nat
|}.

Module Plotters.

Section Plotter.
Context {F : Floats}.

(** A one-dimensional numpy array. *)
Definition ndarray : Type := list num.

(** The right operand of [sp.y + ...]: a float or an array. *)
Inductive operand : Type :=
| Scalar (v : num)
| Array (a : ndarray).

Fixpoint zip_add (a b : ndarray) : ndarray :=
  match a, b with
  | v :: a', w :: b' => add v w :: zip_add a' b'
  | _, _ => []
  end.

(** [a + b] with numpy's broadcasting of one-dimensional operands. *)
Definition np_add (a : ndarray) (b : operand) : result ndarray :=
  match b with
  | Scalar s => Ok (map (fun v => add v s) a)
  | Array b' =>
      if (List.length a =? List.length b')%nat then Ok (zip_add a b')
      else match a, b' with
           | _, [w] => Ok (map (fun v => add v w) a)
           | [v], _ => Ok (map (fun w => add v w) b')
           | _, _ =>
               Raise (ValueError "operands could not be broadcast together")
           end
  end.

(** An object passed as a spectrum: its type's name and the attributes
    the plotter reads, each present or not. *)
Record spectrum : Type := {
  type_name : string;
  x : option ndarray;
  y : option ndarray;
  XLABEL : option string;
  YLABEL : option string
}.

Definition getattr {A : Type} (v : option A) (name : string) : result A :=
  match v with
  | Some a => Ok a
  | None => Raise (AttributeError name)
  end.

(** A colour: a matplotlib colour string, or an RGB triple of the
    palette. *)
Inductive mpl_color : Type :=
| ColorStr (s : string)
| RGB (r g b : num).

(** The truth value of the [color] argument in [color or ...]. *)
Definition truthy (c : option mpl_color) : bool :=
  match c with
  | None => false
  | Some (ColorStr s) => negb (String.eqb s "")
  | Some (RGB _ _ _) => true
  end.

Record SpectrumPlotter : Type := {
  xshift : num;
  yshift : num;
  stack : bool;
  colors_cycle : list mpl_color;
  colors : list mpl_color;
  _spectra : dict spectrum
}.

Definition set_xshift (self : SpectrumPlotter) (v : num) : SpectrumPlotter :=
  {| xshift := v; yshift := yshift self; stack := stack self;
     colors_cycle := colors_cycle self; colors := colors self;
     _spectra := _spectra self |}.

(** [__init__]; [palette] is the [mpl_colors] list that the import of
    the palettable module named by [color_cycle] yields. *)
Definition init (xshift yshift : num) (stack : bool) (palette : list mpl_color)
  : SpectrumPlotter :=
  {| xshift := xshift; yshift := yshift; stack := stack;
     colors_cycle := palette; colors := []; _spectra := [] |}.

Definition set_spectra (self : SpectrumPlotter) (d : dict spectrum)
  : SpectrumPlotter :=
  {| xshift := xshift self; yshift := yshift self; stack := stack self;
     colors_cycle := colors_cycle self; colors := colors self;
     _spectra := d |}.

Definition append_color (self : SpectrumPlotter) (c : mpl_color)
  : SpectrumPlotter :=
  {| xshift := xshift self; yshift := yshift self; stack := stack self;
     colors_cycle := colors_cycle self; colors := colors self ++ [c];
     _spectra := _spectra self |}.

(** The message of line 68. *)
Definition missing_attribute (spectrum : spectrum) (attribute : string)
  : string :=
  "spectrum of type=<class '" ++ type_name spectrum
    ++ "'> missing required attribute='" ++ attribute ++ "'".

(** Lines 66-68: [for attribute in "xy"]. *)
Definition check_attributes (spectrum : spectrum) : result unit :=
  match x spectrum with
  | None => Raise (ValueError (missing_attribute spectrum "x"))
  | Some _ =>
      match y spectrum with
      | None => Raise (ValueError (missing_attribute spectrum "y"))
      | Some _ => Ok tt
      end
  end.

(** Line 70, the right operand of [or]. *)
Definition cycle_color (self : SpectrumPlotter) : result mpl_color :=
  match List.length (colors_cycle self) with
  | O => Raise ZeroDivisionError
  | S _ =>
      match nth_error (colors_cycle self)
                      (List.length (_spectra self)
                         mod List.length (colors_cycle self)) with
      | Some c => Ok c
      | None => Raise (IndexError "list index out of range")
      end
  end.

(** Line 70: [color or self.colors_cycle[...]]. *)
Definition color_or_cycle (color : option mpl_color) (self : SpectrumPlotter)
  : result mpl_color :=
  match color with
  | Some c => if truthy color then Ok c else cycle_color self
  | None => cycle_color self
  end.

(** [add_spectrum]: the plotter after the call, and [Ok tt] or the
    exception raised.  The plotter is updated in place, so what was
    written before an exception stays written. *)
Definition add_spectrum (label : string) (spectrum : spectrum)
           (color : option mpl_color) (self : SpectrumPlotter)
  : SpectrumPlotter * result unit :=
  match check_attributes spectrum with
  | Raise e => (self, Raise e)
  | Ok _ =>
      let self := set_spectra self (dict_set (_spectra self) label spectrum) in
      match color_or_cycle color self with
      | Ok c => (append_color self c, Ok tt)
      | Raise e => (self, Raise e)
      end
  end.

(** A sequence of [add_spectrum] calls, ended by the first exception. *)
Fixpoint add_all (calls : list (string * spectrum * option mpl_color))
         (self : SpectrumPlotter) : SpectrumPlotter * result unit :=
  match calls with
  | [] => (self, Ok tt)
  | (label, spectrum, color) :: calls' =>
      match add_spectrum label spectrum color self with
      | (self', Ok _) => add_all calls' self'
      | (self', Raise e) => (self', Raise e)
      end
  end.

(** The calls [get_plot] makes on the axes and on pyplot. *)
Inductive call : Type :=
| plot (xs ys : ndarray) (c : mpl_color) (label : string) (linewidth : nat)
| fill_between (xs : ndarray) (y1 : operand) (y2 : ndarray)
               (c : mpl_color) (label : string) (linewidth : nat)
| set_xlabel (s : string)
| set_ylabel (s : string)
| set_xlim (lim : num * num)
| set_ylim (lim : num * num)
| legend
| setp_fontsize (n : nat)
| tight_layout.

(** A computation that records calls and may raise. *)
Definition drawing (A : Type) : Type := list call -> list call * result A.

Definition dret {A : Type} (a : A) : drawing A := fun ax => (ax, Ok a).

Definition dbind {A B : Type} (m : drawing A) (k : A -> drawing B)
  : drawing B :=
  fun ax => match m ax with
            | (ax', Ok a) => k a ax'
            | (ax', Raise e) => (ax', Raise e)
            end.

Definition lift {A : Type} (r : result A) : drawing A := fun ax => (ax, r).

Definition emit (c : call) : drawing unit := fun ax => (ax ++ [c], Ok tt).

Notation "v <~ m ;; k" := (dbind m (fun v => k))
  (at level 61, m at next level, right associativity).

(** [self.colors[idx]] *)
Definition color_at (self : SpectrumPlotter) (idx : nat) : result mpl_color :=
  match nth_error (colors self) idx with
  | Some c => Ok c
  | None => Raise (IndexError "list index out of range")
  end.

(** [self.yshift * idx] *)
Definition shift (self : SpectrumPlotter) (idx : nat) : num :=
  mul (yshift self) (of_int idx).

(** Lines 96-115: the body of the loop for the entry [(key, sp)] at
    position [idx]; it returns the new [base]. *)
Definition draw_entry (self : SpectrumPlotter) (idx : nat) (key : string)
           (sp : spectrum) (base : operand) : drawing operand :=
  base' <~ (if negb (stack self) then
              xs <~ lift (getattr (x sp) "x") ;;
              ys <~ lift (getattr (y sp) "y") ;;
              ys' <~ lift (np_add ys (Scalar (shift self idx))) ;;
              c <~ lift (color_at self idx) ;;
              _ <~ emit (plot xs ys' c key 3) ;;
              dret base
            else
              xs <~ lift (getattr (x sp) "x") ;;
              ys <~ lift (getattr (y sp) "y") ;;
              ys' <~ lift (np_add ys (Scalar (shift self idx))) ;;
              c <~ lift (color_at self idx) ;;
              _ <~ emit (fill_between xs base ys' c key 3) ;;
              ys <~ lift (getattr (y sp) "y") ;;
              b <~ lift (np_add ys base) ;;
              dret (Array b)) ;;
  xl <~ lift (getattr (XLABEL sp) "XLABEL") ;;
  _ <~ emit (set_xlabel xl) ;;
  yl <~ lift (getattr (YLABEL sp) "YLABEL") ;;
  _ <~ emit (set_ylabel yl) ;;
  dret base'.

(** Lines 95-115: the loop over [enumerate(self._spectra.items())], from
    position [idx] on. *)
Fixpoint draw_spectra (self : SpectrumPlotter) (idx : nat)
         (items : list (string * spectrum)) (base : operand)
  : drawing unit :=
  match items with
  | [] => dret tt
  | (key, sp) :: items' =>
      base' <~ draw_entry self idx key sp base ;;
      draw_spectra self (S idx) items' base'
  end.

(** [get_plot]: the calls made on a fresh axes, in order, and [Ok tt]
    or the exception that ended them. *)
Definition get_plot (xlim ylim : option (num * num)) (self : SpectrumPlotter)
  : list call * result unit :=
  (_ <~ draw_spectra self 0 (_spectra self) (Scalar zero) ;;
   _ <~ match xlim with Some l => emit (set_xlim l) | None => dret tt end ;;
   _ <~ match ylim with Some l => emit (set_ylim l) | None => dret tt end ;;
   _ <~ emit legend ;;
   _ <~ emit (setp_fontsize 30) ;;
   emit tight_layout) [].

(** The [fill_between] calls among [cs]. *)
Definition fills (cs : list call) : list call :=
  filter (fun c => match c with
                   | fill_between _ _ _ _ _ _ => true
                   | _ => false
                   end) cs.

(** The [plot] calls among [cs]. *)
Definition plots (cs : list call) : list call :=
  filter (fun c => match c with
                   | plot _ _ _ _ _ => true
                   | _ => false
                   end) cs.
(** The key function of [add_spectra]: [key_sort_func], the type of the
    keys it returns and their [<]. *)
Record sort_key : Type := {
  key_type : Type;
  key_sort_func : string -> key_type;
  key_lt : key_type -> key_type -> bool
}.

(** [sorted(spectra_dict, key=key_sort_func)], with each label's spectrum
    carried along ([spectra_dict[label]] is the value of the item with
    that label).  The builtin's sort is stable: labels with equal keys
    keep their order.  It is written as an insertion sort, which gives
    what the builtin gives when [<] is a strict weak order on the keys. *)
Fixpoint insert_item (k : sort_key) (a : string * spectrum)
         (l : list (string * spectrum)) : list (string * spectrum) :=
  match l with
  | [] => [a]
  | b :: l' =>
      if key_lt k (key_sort_func k (fst b)) (key_sort_func k (fst a))
      then b :: insert_item k a l'
      else a :: b :: l'
  end.

Definition sorted_items (k : sort_key) (d : dict spectrum)
  : list (string * spectrum) :=
  fold_right (insert_item k) [] d.

(** [add_spectra]: the labels in sorted order, or in the order of the
    dict, each added with its spectrum and no colour. *)
Definition add_spectra (spectra_dict : dict spectrum)
           (key_sort_func : option sort_key) (self : SpectrumPlotter)
  : SpectrumPlotter * result unit :=
  let items := match key_sort_func with
               | Some k => sorted_items k spectra_dict
               | None => spectra_dict
               end in
  add_all (map (fun it => (fst it, snd it, None)) items) self.
End Plotter.

End Plotters.

(** ** Vocabulary of the statements about [new_read_table_pattern] *)

Import TempUtils.

(** The return value for a given [attribute_name]: [retained_data] itself,
    or the one-entry dict holding it. *)
Definition wrap {V : Type} (attribute_name : option string) (r : retained V)
  : retval V :=
  match attribute_name with
  | Some name => Data [(name, r)]
  | None => Bare r
  end.

Definition tables_of {V : Type} (r : retained V) : list (table V) :=
  match r with
  | OneTable t => [t]
  | Tables ts => ts
  end.

(** Every row of every table of a return value. *)
Definition rows_of {V : Type} (v : retval V) : list (row V) :=
  match v with
  | Bare r => concat (tables_of r)
  | Data data => concat (flat_map (fun kv => tables_of (snd kv)) data)
  end.

(** A row that is a dict with exactly the keys [names], in that order. *)
Definition is_dict_row {V : Type} (names : list string) (r : row V) : Prop :=
  exists kvs, r = RowDict kvs /\ dict_keys kvs = names.

(** A row that is a list of positional values. *)
Definition is_list_row {V : Type} (r : row V) : Prop :=
  exists vs, r = RowList vs.

(** The flags of lines 11 and 62. *)
Definition MS : Z := Z.lor MULTILINE DOTALL.

(** A pattern of the mapping that compiles under the flags of line 11. *)
Definition compiles {E : RegexEngine} (kp : string * string) : Prop :=
  exists c, re_compile (snd kp) MS = Ok c.

(** * Facts about temp_utils.py *)

Module TempUtilsFacts.

Section Generic.
Context {E : RegexEngine} {V : Type}.
Variable postprocess : option string -> result V.

Lemma mapM_length {A B : Type} (f : A -> result B) (xs : list A) (ys : list B) :
  mapM f xs = Ok ys -> List.length ys = List.length xs.
Proof.
  revert ys. induction xs as [|a xs IH]; simpl; intros ys H.
  - inversion H. reflexivity.
  - destruct (f a) as [b|e]; simpl in H; [|discriminate].
    destruct (mapM f xs) as [bs|e]; simpl in H; [|discriminate].
    inversion H. simpl. f_equal. now apply IH.
Qed.

Lemma mapM_Forall {A B : Type} (f : A -> result B) (P : B -> Prop)
      (xs : list A) (ys : list B) :
  (forall a b, f a = Ok b -> P b) -> mapM f xs = Ok ys -> Forall P ys.
Proof.
  intros Hf. revert ys. induction xs as [|a xs IH]; simpl; intros ys H.
  - inversion H. constructor.
  - destruct (f a) as [b|e] eqn:Ha; simpl in H; [|discriminate].
    destruct (mapM f xs) as [bs|e]; simpl in H; [|discriminate].
    inversion H. constructor; eauto.
Qed.

Lemma last_item_snoc {A : Type} (front : list A) (t : A) :
  last_item (front ++ [t]) = Ok t.
Proof. unfold last_item. rewrite rev_app_distr. reflexivity. Qed.

Lemma nonempty_snoc {A : Type} (xs : list A) :
  xs <> [] -> exists front t, xs = front ++ [t].
Proof.
  intros H. destruct (exists_last H) as [front [t Heq]]. eauto.
Qed.

Lemma dict_set_empty {A : Type} (k : string) (v : A) :
  dict_set [] k v = [(k, v)].
Proof. reflexivity. Qed.

(** *** The shape of rows *)

Lemma groupdict_keys (rp : pattern) (ml : rmatch) :
  dict_keys (groupdict rp ml) = dict_keys (groupindex rp).
Proof.
  unfold groupdict, dict_keys. rewrite map_map. reflexivity.
Qed.

Lemma mapM_pairs_keys (d : dict (option string)) (kvs : dict V) :
  mapM (fun kv : string * option string =>
          v <- postprocess (snd kv) ;; Ok (fst kv, v)) d = Ok kvs ->
  dict_keys kvs = dict_keys d.
Proof.
  revert kvs. induction d as [|[k w] d IH]; simpl; intros kvs H.
  - inversion H. reflexivity.
  - destruct (postprocess w) as [v|e]; simpl in H; [|discriminate].
    destruct (mapM _ d) as [rest|e]; simpl in H; [|discriminate].
    inversion H. simpl. f_equal. now apply IH.
Qed.

(** The shape of one row follows from the pattern's named groups alone. *)
Lemma process_line_shape (rp : pattern) (ml : rmatch) (r : row V) :
  process_line postprocess rp ml = Ok r ->
  (groupindex rp <> [] -> is_dict_row (dict_keys (groupindex rp)) r)
  /\ (groupindex rp = [] -> is_list_row r).
Proof.
  unfold process_line. intros H.
  pose proof (groupdict_keys rp ml) as Hkeys.
  destruct (0 <? List.length (groupdict rp ml))%nat eqn:Hlen.
  - destruct (mapM _ (groupdict rp ml)) as [kvs|e] eqn:Hm; simpl in H;
      [|discriminate].
    inversion H; subst r. split.
    + intros _. exists kvs. split; [reflexivity|].
      rewrite (mapM_pairs_keys _ _ Hm). exact Hkeys.
    + intros Hnil. rewrite Hnil in Hkeys. unfold dict_keys in Hkeys.
      apply map_eq_nil in Hkeys. rewrite Hkeys in Hlen. discriminate.
  - destruct (mapM postprocess (groups ml)) as [vs|e] eqn:Hm; simpl in H;
      [|discriminate].
    inversion H; subst r. split.
    + intros Hne. exfalso. apply Hne.
      apply Nat.ltb_ge in Hlen. apply Nat.le_0_r in Hlen.
      apply length_zero_iff_nil in Hlen.
      unfold groupdict in Hlen. now apply map_eq_nil in Hlen.
    + intros _. exists vs. reflexivity.
Qed.

Lemma last_item_In {A : Type} (xs : list A) (t : A) :
  last_item xs = Ok t -> In t xs.
Proof.
  unfold last_item. intros H. apply in_rev.
  destruct (rev xs) as [|a l]; [discriminate|].
  inversion H. now left.
Qed.

Lemma process_table_shape (tp rp : pattern) (mt : rmatch) (t : table V) :
  process_table postprocess tp rp mt = Ok t ->
  (groupindex rp <> [] -> Forall (is_dict_row (dict_keys (groupindex rp))) t)
  /\ (groupindex rp = [] -> Forall is_list_row t).
Proof.
  unfold process_table. intros H.
  destruct (group tp mt "table_body") as [[body|]|e]; simpl in H;
    try discriminate.
  split; intros Hg; eapply mapM_Forall; try exact H;
    intros ml r Hr; apply process_line_shape in Hr; now apply Hr.
Qed.

Lemma rows_of_wrap (attribute_name : option string) (r : retained V) :
  rows_of (wrap attribute_name r) = concat (tables_of r).
Proof.
  destruct attribute_name; simpl; [rewrite app_nil_r|]; reflexivity.
Qed.

Lemma Forall_concat {A : Type} (P : A -> Prop) (xss : list (list A)) :
  Forall (Forall P) xss -> Forall P (concat xss).
Proof.
  induction 1; simpl; [constructor|]. apply Forall_app. now split.
Qed.

(** *** [new_read_table_pattern], for one text and one triple of patterns *)

Section Call.
Variables text_str header_pattern row_pattern footer_pattern : string.
Variable attribute_name : option string.

Local Abbreviation composite :=
  (table_pattern_text header_pattern row_pattern footer_pattern).
Local Abbreviation call :=
  (new_read_table_pattern postprocess text_str header_pattern row_pattern
                          footer_pattern attribute_name).

(** What the function returns once both patterns are compiled, in terms of
    the tables parsed. *)
Lemma new_read_table_pattern_compiled last_one_only tp rp :
  re_compile composite MS = Ok tp ->
  re_compile row_pattern 0%Z = Ok rp ->
  call last_one_only
  = (tables <- mapM (process_table postprocess tp rp) (finditer tp text_str) ;;
     retained_data <- (if last_one_only
                       then t <- last_item tables ;; Ok (OneTable t)
                       else Ok (Tables tables)) ;;
     Ok (wrap attribute_name retained_data)).
Proof.
  intros Htp Hrp. unfold new_read_table_pattern. fold MS.
  rewrite Htp. simpl. rewrite Hrp. simpl.
  destruct (mapM _ _) as [tables|e]; simpl; [|reflexivity].
  destruct last_one_only.
  - destruct (last_item tables); simpl; [|reflexivity].
    destruct attribute_name; reflexivity.
  - simpl. destruct attribute_name; reflexivity.
Qed.

(** C4, as amended: when the row pattern compiles on its own and the
    composite pattern has no match in the text, [last_one_only=False]
    returns the empty list of tables (under [attribute_name] when one is
    given) and [last_one_only=True] raises the [IndexError] of indexing an
    empty list. *)
Theorem zero_matches tp rp :
  re_compile composite MS = Ok tp ->
  re_compile row_pattern 0%Z = Ok rp ->
  finditer tp text_str = [] ->
  call false = Ok (wrap attribute_name (Tables []))
  /\ call true = Raise (IndexError "list index out of range").
Proof.
  intros Htp Hrp Hnone.
  rewrite !(new_read_table_pattern_compiled _ tp rp Htp Hrp).
  rewrite Hnone. split; reflexivity.
Qed.

(** C5: when the composite pattern matches at least once, either both
    calls raise the same exception, or [last_one_only=False] returns a
    non-empty list of tables and [last_one_only=True] returns its final
    element (each under [attribute_name] when one is given). *)
Theorem last_one_only_is_final_table tp :
  re_compile composite MS = Ok tp ->
  finditer tp text_str <> [] ->
  match call false with
  | Ok v =>
      exists front t,
        v = wrap attribute_name (Tables (front ++ [t]))
        /\ call true = Ok (wrap attribute_name (OneTable t))
  | Raise e => call true = Raise e
  end.
Proof.
  intros Htp Hsome.
  destruct (re_compile row_pattern 0%Z) as [rp|e] eqn:Hrp.
  - rewrite !(new_read_table_pattern_compiled _ tp rp Htp Hrp).
    destruct (mapM _ _) as [tables|e] eqn:Htables; simpl; [|reflexivity].
    assert (Hne : tables <> []).
    { intros ->. apply mapM_length in Htables. simpl in Htables.
      destruct (finditer tp text_str); [congruence|discriminate]. }
    destruct (nonempty_snoc tables Hne) as [front [t ->]].
    exists front, t. rewrite last_item_snoc. split; reflexivity.
  - unfold new_read_table_pattern. fold MS. rewrite Htp. simpl.
    rewrite Hrp. reflexivity.
Qed.

(** C6: in the value a call returns, every row of every table is a dict
    keyed by the named groups of [row_pattern] when it defines some, and
    every row is a list when it defines none. *)
Theorem rows_same_shape last_one_only rp v :
  re_compile row_pattern 0%Z = Ok rp ->
  call last_one_only = Ok v ->
  (groupindex rp <> [] ->
   Forall (is_dict_row (dict_keys (groupindex rp))) (rows_of v))
  /\ (groupindex rp = [] -> Forall is_list_row (rows_of v)).
Proof.
  intros Hrp Hv.
  destruct (re_compile composite MS) as [tp|e] eqn:Htp.
  2:{ unfold new_read_table_pattern in Hv. fold MS in Hv.
      rewrite Htp in Hv. discriminate. }
  rewrite (new_read_table_pattern_compiled _ tp rp Htp Hrp) in Hv.
  destruct (mapM _ _) as [tables|e] eqn:Htables; simpl in Hv; [|discriminate].
  assert (Hall : forall P : row V -> Prop,
             (forall mt t, process_table postprocess tp rp mt = Ok t ->
                           Forall P t) ->
             Forall P (rows_of v)).
  { intros P HP.
    assert (Ht : Forall (Forall P) tables) by (eapply mapM_Forall; eauto).
    destruct last_one_only.
    - destruct (last_item tables) as [t|e] eqn:Hlast; simpl in Hv;
        [|discriminate].
      inversion Hv. rewrite rows_of_wrap. simpl. rewrite app_nil_r.
      apply last_item_In in Hlast.
      rewrite Forall_forall in Ht. now apply Ht.
    - simpl in Hv. inversion Hv. rewrite rows_of_wrap. simpl.
      now apply Forall_concat. }
  split; intros Hg; apply Hall; intros mt t Ht;
    apply process_table_shape in Ht; now apply Ht.
Qed.
End Call.

(** *** [read_pattern] *)

Lemma compile_patterns_cons k p (items : dict string) (acc : dict pattern) :
  compile_patterns ((k, p) :: items) acc
  = (c <- re_compile p MS ;; compile_patterns items (dict_set acc k c)).
Proof. reflexivity. Qed.

Lemma compile_patterns_all (items : dict string) (acc : dict pattern) :
  Forall compiles items -> exists d, compile_patterns items acc = Ok d.
Proof.
  intros H. revert acc. induction H as [|[k p] items [c Hc] _ IH]; intros acc.
  - exists acc. reflexivity.
  - rewrite compile_patterns_cons. simpl in Hc. rewrite Hc. apply IH.
Qed.

Lemma compile_patterns_first_failure (pre post : dict string) k p e acc :
  Forall compiles pre -> re_compile p MS = Raise e ->
  compile_patterns (pre ++ (k, p) :: post) acc = Raise e.
Proof.
  intros H He. revert acc.
  induction H as [|[k' p'] pre [c Hc] _ IH]; intros acc.
  - simpl app. rewrite compile_patterns_cons, He. reflexivity.
  - simpl app. rewrite compile_patterns_cons. simpl in Hc. rewrite Hc. apply IH.
Qed.

(** Every mapping either compiles as a whole or has a first pattern that
    does not. *)
Lemma compiles_or_first_failure (items : dict string) :
  Forall compiles items
  \/ exists pre k p post e,
       items = pre ++ (k, p) :: post /\ Forall compiles pre
       /\ re_compile p MS = Raise e.
Proof.
  induction items as [|[k p] items IH].
  - left. constructor.
  - destruct (re_compile p MS) as [c|e] eqn:Hp.
    + assert (Hkp : compiles (k, p)) by (exists c; exact Hp).
      destruct IH as [IH|(pre & k' & p' & post & e & -> & Hpre & He)].
      * left. now constructor.
      * right. exists ((k, p) :: pre), k', p', post, e.
        repeat split; [now constructor|exact He].
    + right. exists [], k, p, items, e. repeat split; [constructor|exact Hp].
Qed.

(** Line 12 raises whenever line 11 has not. *)
Lemma read_pattern_outcome text_str patterns terminate_on_match :
  read_pattern postprocess text_str patterns terminate_on_match
  = match compile_patterns patterns [] with
    | Ok _ => Raise (NameError "collections")
    | Raise e => Raise e
    end.
Proof.
  unfold read_pattern. destruct (compile_patterns patterns []); reflexivity.
Qed.

(** C2, as amended: no call returns.  When every pattern of the mapping
    compiles the call raises [NameError] for [collections]; otherwise it
    raises what compiling the first failing pattern raises.  Either way
    the text and [terminate_on_match] have no part in the outcome. *)
Theorem read_pattern_never_returns text_str patterns terminate_on_match :
  ((Forall compiles patterns
    /\ read_pattern postprocess text_str patterns terminate_on_match
       = Raise (NameError "collections"))
   \/ (exists pre k p post e,
         patterns = pre ++ (k, p) :: post /\ Forall compiles pre
         /\ re_compile p MS = Raise e
         /\ read_pattern postprocess text_str patterns terminate_on_match
            = Raise e))
  /\ forall text_str' terminate_on_match',
       read_pattern postprocess text_str' patterns terminate_on_match'
       = read_pattern postprocess text_str patterns terminate_on_match.
Proof.
  split.
  - rewrite read_pattern_outcome.
    destruct (compiles_or_first_failure patterns)
      as [Hall|(pre & k & p & post & e & -> & Hpre & He)].
    + left. split; [exact Hall|].
      destruct (compile_patterns_all patterns [] Hall) as [d ->].
      reflexivity.
    + right. exists pre, k, p, post, e. repeat split; try assumption.
      now rewrite (compile_patterns_first_failure pre post k p e []).
  - intros text_str' terminate_on_match'.
    now rewrite !read_pattern_outcome.
Qed.

(** *** The loop of lines 13-17 on its own *)

Lemma dict_get_set {A : Type} (d : dict A) (k k' : string) (v : A) :
  dict_get (dict_set d k v) k'
  = if String.eqb k k' then Some v else dict_get d k'.
Proof.
  induction d as [|[k0 v0] d IH]; simpl.
  - reflexivity.
  - destruct (String.eqb k0 k) eqn:E0; simpl.
    + apply String.eqb_eq in E0. subst k0.
      destruct (String.eqb k k'); reflexivity.
    + destruct (String.eqb k0 k') eqn:E1.
      * apply String.eqb_eq in E1. subst k0.
        rewrite String.eqb_sym in E0. rewrite E0. reflexivity.
      * exact IH.
Qed.

Lemma defaultdict_get_append (matches : dict (list (list V))) key rec k :
  defaultdict_get (defaultdict_append matches key rec) k
  = if String.eqb key k then defaultdict_get matches key ++ [rec]
    else defaultdict_get matches k.
Proof.
  unfold defaultdict_get, defaultdict_append.
  destruct (dict_get matches key) as [recs|] eqn:Hkey;
    rewrite dict_get_set; destruct (String.eqb key k); reflexivity.
Qed.

(** With [terminate_on_match] the inner loop appends at most one record,
    and only under its own key. *)
Lemma scan_matches_terminate key ms matches matches' :
  scan_matches postprocess true key ms matches = Ok matches' ->
  forall k,
    defaultdict_get matches' k = defaultdict_get matches k
    \/ (k = key /\ exists rec,
          defaultdict_get matches' k = defaultdict_get matches k ++ [rec]).
Proof.
  destruct ms as [|m ms]; simpl; intros H k.
  - inversion H. now left.
  - destruct (mapM postprocess (groups m)) as [rec|e]; simpl in H;
      [|discriminate].
    inversion H. rewrite defaultdict_get_append.
    destruct (String.eqb key k) eqn:Ek.
    + apply String.eqb_eq in Ek. subst k. right. split; [reflexivity|].
      now exists rec.
    + now left.
Qed.

(** The loop with [terminate_on_match], run over patterns with distinct
    names from the empty mapping, leaves at most one record per name. *)
Lemma scan_patterns_at_most_one text_str compiled matches0 matches :
  NoDup (dict_keys compiled) ->
  (forall k, List.length (defaultdict_get matches0 k) <= 1) ->
  (forall k, In k (dict_keys compiled) -> defaultdict_get matches0 k = []) ->
  scan_patterns postprocess text_str true compiled matches0 = Ok matches ->
  forall k, List.length (defaultdict_get matches k) <= 1.
Proof.
  revert matches0. induction compiled as [|[key p] compiled IH];
    simpl; intros matches0 Hnd Hle Hfresh H.
  - inversion H. subst. exact Hle.
  - destruct (scan_matches _ _ _ _ _) as [matches1|e] eqn:Hscan; simpl in H;
      [|discriminate].
    inversion Hnd as [|? ? Hnotin Hnd']; subst.
    pose proof (scan_matches_terminate _ _ _ _ Hscan) as Hstep.
    apply (IH matches1); try assumption.
    + intros k. destruct (Hstep k) as [->|[-> [rec ->]]]; [apply Hle|].
      rewrite (Hfresh key) by now left. simpl. lia.
    + intros k Hin. destruct (Hstep k) as [->|[-> _]].
      * apply Hfresh. now right.
      * contradiction.
Qed.
End Generic.

End TempUtilsFacts.

(** * The literal scenarios, on the [Sre] engine *)

Module Scenarios.

#[local] Existing Instance Sre.engine.

(** ["BEGIN\nA 1\nA 2\nEND"], with its three newline characters. *)
Definition scenario_text : string :=
  "BEGIN" ++ nl ++ "A 1" ++ nl ++ "A 2" ++ nl ++ "END".

(** The same block twice, the second with other numbers. *)
Definition two_tables_text : string :=
  scenario_text ++ nl ++ "BEGIN" ++ nl ++ "A 30" ++ nl ++ "END".

Definition empty_pattern : Sre.compiled :=
  {| Sre.p_node := Sre.Eps; Sre.p_groups := 0;
     Sre.p_groupindex := []; Sre.p_flags := 0 |}.

Definition compiled_or_empty (pat : string) (flags : Z) : Sre.compiled :=
  match Sre.compile pat flags with
  | Ok c => c
  | Raise _ => empty_pattern
  end.

(** The patterns of the scenario, compiled. *)
Definition scenario_tp : @pattern Sre.engine :=
  Eval vm_compute in
    compiled_or_empty (table_pattern_text "BEGIN\n" "A (\d+)\n" "END") MS.

Definition scenario_rp : @pattern Sre.engine :=
  Eval vm_compute in compiled_or_empty "A (\d+)\n" 0.

(** A row pattern with a named group. *)
Definition named_rp : @pattern Sre.engine :=
  Eval vm_compute in compiled_or_empty "A (?P<n>\d+)\n" 0.

(** C1: the literal scenario returns the single table [[1], [2]]: two
    rows in order of appearance, each the one-element list of the
    integer its group captured. *)
Theorem literal_scenario :
  new_read_table_pattern PyInt.int scenario_text
                         "BEGIN\n" "A (\d+)\n" "END" None true
  = Ok (Bare (OneTable [RowList [1%Z]; RowList [2%Z]])).
Proof. vm_compute. reflexivity. Qed.

(** C4, the input on which the claim as stated fails: the composite
    pattern built around the row pattern [a)(b] compiles and has no match
    in the empty text, but the row pattern does not compile on its own, so
    both calls raise [re.error]. *)
Lemma zero_matches_counterexample :
  match re_compile (table_pattern_text "" "a)(b" "") MS with
  | Ok tp => finditer tp "" = []
  | Raise _ => False
  end
  /\ new_read_table_pattern py_str "" "" "a)(b" "" None false
     = Raise (ReError "unbalanced parenthesis")
  /\ new_read_table_pattern py_str "" "" "a)(b" "" None true
     = Raise (ReError "unbalanced parenthesis").
Proof. repeat split; vm_compute; reflexivity. Qed.

Lemma zero_matches_witness :
  (re_compile (table_pattern_text "BEGIN\n" "A (\d+)\n" "END") MS
   = Ok scenario_tp
   /\ re_compile "A (\d+)\n" 0%Z = Ok scenario_rp
   /\ finditer scenario_tp "BEGIN END" = [])
  /\ new_read_table_pattern PyInt.int "BEGIN END" "BEGIN\n" "A (\d+)\n" "END"
                            (Some "efg") false
     = Ok (Data [("efg", Tables [])])
  /\ new_read_table_pattern PyInt.int "BEGIN END" "BEGIN\n" "A (\d+)\n" "END"
                            (Some "efg") true
     = Raise (IndexError "list index out of range").
Proof.
  split.
  - repeat split; vm_compute; reflexivity.
  - apply (TempUtilsFacts.zero_matches PyInt.int "BEGIN END"
             "BEGIN\n" "A (\d+)\n" "END" (Some "efg") scenario_tp scenario_rp);
      vm_compute; reflexivity.
Defined.

Lemma last_one_only_is_final_table_witness :
  finditer scenario_tp two_tables_text <> []
  /\ exists front t,
       new_read_table_pattern PyInt.int two_tables_text
                              "BEGIN\n" "A (\d+)\n" "END" None false
       = Ok (Bare (Tables (front ++ [t])))
       /\ new_read_table_pattern PyInt.int two_tables_text
                                 "BEGIN\n" "A (\d+)\n" "END" None true
          = Ok (Bare (OneTable t)).
Proof.
  assert (Hsome : finditer scenario_tp two_tables_text <> [])
    by (vm_compute; discriminate).
  split; [exact Hsome|].
  pose proof (TempUtilsFacts.last_one_only_is_final_table PyInt.int
                two_tables_text "BEGIN\n" "A (\d+)\n" "END" None scenario_tp
                eq_refl Hsome) as H.
  destruct (new_read_table_pattern PyInt.int two_tables_text
              "BEGIN\n" "A (\d+)\n" "END" None false) as [v|e] eqn:Hv.
  - destruct H as [front [t [-> Ht]]]. exists front, t.
    split; [reflexivity|exact Ht].
  - vm_compute in Hv. discriminate.
Defined.

Lemma rows_same_shape_witness :
  Forall (is_dict_row ["n"])
         (rows_of
            (Bare (Tables [[RowDict [("n", 1%Z)]; RowDict [("n", 2%Z)]]])))
  /\ Forall (@is_list_row Z)
            (rows_of (Bare (OneTable [RowList [1%Z]; RowList [2%Z]]))).
Proof.
  split.
  - apply (TempUtilsFacts.rows_same_shape PyInt.int scenario_text
             "BEGIN\n" "A (?P<n>\d+)\n" "END" None false named_rp);
      [reflexivity | vm_compute; reflexivity | discriminate].
  - apply (TempUtilsFacts.rows_same_shape PyInt.int scenario_text
             "BEGIN\n" "A (\d+)\n" "END" None true scenario_rp);
      [reflexivity | vm_compute; reflexivity | reflexivity].
Defined.

(** C2, the input on which the claim as stated fails: a mapping whose
    pattern does not compile raises [re.error], not [NameError]. *)
Lemma read_pattern_counterexample :
  read_pattern py_str "abc" [("key", "(")] false
  = Raise (ReError "missing ), unterminated subpattern")
  /\ read_pattern py_str "abc" [("key", "(")] false
     <> Raise (NameError "collections").
Proof. split; [vm_compute; reflexivity | vm_compute; discriminate]. Qed.

(** C7, evaluated: with [terminate_on_match=True] on a text holding the
    pattern twice the call raises [NameError], where the loop of lines
    13-17 on its own would leave the single record of the first match. *)
Theorem terminate_on_match_raises :
  read_pattern py_str "a1 a2" [("key", "a(\d)")] true
  = Raise (NameError "collections")
  /\ (compiled <- compile_patterns [("key", "a(\d)")] [] ;;
      scan_patterns py_str "a1 a2" true compiled [])
     = Ok [("key", [["1"]])].
Proof. split; vm_compute; reflexivity. Qed.

End Scenarios.

(** * Facts about plotters.py *)

Module PlottersFacts.

Import Plotters.

(** The label of a recorded [add_spectrum] call. *)
Definition label_of {F : Floats}
           (c : string * spectrum * option mpl_color) : string :=
  fst (fst c).

Section Facts.
Context {F : Floats}.

(** *** Dictionary updates *)

Lemma dict_keys_set_present {A : Type} (d : dict A) (k : string) (v : A) :
  In k (dict_keys d) -> dict_keys (dict_set d k v) = dict_keys d.
Proof.
  induction d as [|[k0 v0] d IH]; simpl; intros H; [contradiction|].
  destruct (String.eqb k0 k) eqn:E0; simpl; [reflexivity|].
  f_equal. apply IH. destruct H as [H|H]; [|exact H].
  subst k0. rewrite String.eqb_refl in E0. discriminate.
Qed.

Lemma dict_keys_set_absent {A : Type} (d : dict A) (k : string) (v : A) :
  ~ In k (dict_keys d) -> dict_keys (dict_set d k v) = dict_keys d ++ [k].
Proof.
  induction d as [|[k0 v0] d IH]; simpl; intros H; [reflexivity|].
  destruct (String.eqb k0 k) eqn:E0; simpl.
  - apply String.eqb_eq in E0. exfalso. apply H. now left.
  - f_equal. apply IH. intros Hin. apply H. now right.
Qed.

Lemma dict_get_set_same {A : Type} (d : dict A) (k : string) (v : A) :
  dict_get (dict_set d k v) k = Some v.
Proof.
  induction d as [|[k0 v0] d IH]; simpl.
  - now rewrite String.eqb_refl.
  - destruct (String.eqb k0 k) eqn:E0; simpl; rewrite E0;
      [reflexivity|exact IH].
Qed.

Lemma dict_keys_set_In {A : Type} (d : dict A) (k : string) (v : A)
      (l : string) :
  In l (dict_keys (dict_set d k v)) <-> In l (dict_keys d) \/ l = k.
Proof.
  destruct (in_dec string_dec k (dict_keys d)) as [Hin|Hout].
  - rewrite dict_keys_set_present by exact Hin. split; [now left|].
    intros [H| ->]; assumption.
  - rewrite dict_keys_set_absent by exact Hout. rewrite in_app_iff. simpl.
    split; intros [H|H]; auto; try (destruct H as [H|[]]); subst; simpl; auto.
Qed.

Lemma dict_keys_set_NoDup {A : Type} (d : dict A) (k : string) (v : A) :
  NoDup (dict_keys d) -> NoDup (dict_keys (dict_set d k v)).
Proof.
  intros Hnd. destruct (in_dec string_dec k (dict_keys d)) as [Hin|Hout].
  - now rewrite dict_keys_set_present.
  - rewrite dict_keys_set_absent by exact Hout.
    apply NoDup_app; [exact Hnd | repeat constructor; intros [] |].
    intros a Ha [<-|[]]. contradiction.
Qed.

(** *** [add_spectrum] *)

(** What a call that returns normally has done. *)
Lemma add_spectrum_ok label spectrum color self self' :
  add_spectrum label spectrum color self = (self', Ok tt) ->
  exists c,
    self' = append_color
              (set_spectra self (dict_set (_spectra self) label spectrum)) c
    /\ x spectrum <> None /\ y spectrum <> None
    /\ (truthy color = true -> color = Some c).
Proof.
  unfold add_spectrum, check_attributes.
  destruct (x spectrum) as [xs|]; [|discriminate].
  destruct (y spectrum) as [ys|]; [|discriminate].
  destruct (color_or_cycle _ _) as [c|e] eqn:Hc; [|discriminate].
  intros H. inversion H. exists c. repeat split; try discriminate.
  intros Ht. unfold color_or_cycle in Hc.
  destruct color as [c0|]; [|discriminate].
  rewrite Ht in Hc. now inversion Hc.
Qed.

(** C8: a spectrum without [x], or without [y], makes [add_spectrum]
    raise a [ValueError] whose message names the type of the object and
    the first missing attribute, and the plotter returned is the plotter
    given: neither [_spectra] nor [colors] has changed. *)
Theorem add_spectrum_missing_attribute label spectrum color self :
  x spectrum = None \/ y spectrum = None ->
  exists attribute,
    (attribute = "x" /\ x spectrum = None
     \/ attribute = "y" /\ y spectrum = None)
    /\ add_spectrum label spectrum color self
       = (self,
          Raise (ValueError
                   ("spectrum of type=<class '" ++ type_name spectrum
                      ++ "'> missing required attribute='" ++ attribute
                      ++ "'"))).
Proof.
  intros H. unfold add_spectrum, check_attributes, missing_attribute.
  destruct (x spectrum) as [xs|] eqn:Hx.
  - destruct H as [H|H]; [discriminate|]. rewrite H.
    exists "y". split; [right; now split|reflexivity].
  - exists "x". split; [left; now split|reflexivity].
Qed.

(** *** Sequences of calls *)

Lemma add_all_app pre post self self' :
  add_all (pre ++ post) self = (self', Ok tt) ->
  exists mid, add_all pre self = (mid, Ok tt)
              /\ add_all post mid = (self', Ok tt).
Proof.
  revert self. induction pre as [|[[l sp] c] pre IH]; simpl; intros self H.
  - exists self. now split.
  - destruct (add_spectrum l sp c self) as [self1 [[]|e]]; [|discriminate].
    now apply IH.
Qed.

Lemma add_all_colors calls self self' :
  add_all calls self = (self', Ok tt) ->
  exists cs, colors self' = colors self ++ cs
             /\ List.length cs = List.length calls.
Proof.
  revert self. induction calls as [|[[l sp] c] calls IH]; simpl; intros self H.
  - inversion H. exists []. now rewrite app_nil_r.
  - destruct (add_spectrum l sp c self) as [self1 [[]|e]] eqn:Hadd;
      [|discriminate].
    apply add_spectrum_ok in Hadd. destruct Hadd as [col [-> _]].
    destruct (IH _ H) as [cs [Hcs Hlen]]. simpl in Hcs.
    exists (col :: cs). split; [|simpl; now f_equal].
    rewrite Hcs, <- app_assoc. reflexivity.
Qed.

Lemma add_all_keys calls self self' :
  add_all calls self = (self', Ok tt) ->
  (NoDup (dict_keys (_spectra self)) -> NoDup (dict_keys (_spectra self')))
  /\ forall l,
       In l (dict_keys (_spectra self'))
       <-> In l (dict_keys (_spectra self)) \/ In l (map label_of calls).
Proof.
  revert self. induction calls as [|[[l sp] c] calls IH]; simpl; intros self H.
  - inversion H. split; [auto|]. intros l.
    split; [now left|]. now intros [?|[]].
  - destruct (add_spectrum l sp c self) as [self1 [[]|e]] eqn:Hadd;
      [|discriminate].
    apply add_spectrum_ok in Hadd. destruct Hadd as [col [-> _]].
    destruct (IH _ H) as [Hnd Hin]. simpl in Hnd, Hin. split.
    + intros H0. apply Hnd. now apply dict_keys_set_NoDup.
    + intros l0. rewrite Hin, dict_keys_set_In. unfold label_of at 1. simpl.
      intuition (subst; auto).
Qed.

Lemma NoDup_same_length (l1 l2 : list string) :
  NoDup l1 -> NoDup l2 -> (forall a, In a l1 <-> In a l2) ->
  List.length l1 = List.length l2.
Proof.
  intros H1 H2 Hiff. apply Nat.le_antisymm.
  - apply NoDup_incl_length; [exact H1|]. intros a Ha. now apply Hiff.
  - apply NoDup_incl_length; [exact H2|]. intros a Ha. now apply Hiff.
Qed.

(** C10: after [n] calls that all return, made on a new plotter, [colors]
    has [n] entries and [_spectra] has exactly one entry per distinct
    label.  A call in the sequence whose label is already stored keeps the
    keys as they are, stores the new spectrum under the label and appends
    one colour; the colours that were there before it, the overwritten
    entry's among them, stay at their positions to the end. *)
Theorem colors_append_only xshift yshift stack palette calls self :
  add_all calls (init xshift yshift stack palette) = (self, Ok tt) ->
  List.length (colors self) = List.length calls
  /\ NoDup (dict_keys (_spectra self))
  /\ (forall l, In l (dict_keys (_spectra self)) <-> In l (map label_of calls))
  /\ List.length (_spectra self)
     = List.length (nodup string_dec (map label_of calls))
  /\ forall pre label spectrum color post before,
       calls = pre ++ (label, spectrum, color) :: post ->
       add_all pre (init xshift yshift stack palette) = (before, Ok tt) ->
       In label (dict_keys (_spectra before)) ->
       exists after c later,
         add_spectrum label spectrum color before = (after, Ok tt)
         /\ dict_keys (_spectra after) = dict_keys (_spectra before)
         /\ dict_get (_spectra after) label = Some spectrum
         /\ colors after = colors before ++ [c]
         /\ colors self = colors before ++ c :: later.
Proof.
  intros H.
  destruct (add_all_colors _ _ _ H) as [cs [Hcs Hlen]].
  destruct (add_all_keys _ _ _ H) as [Hnd Hin]. simpl in Hcs, Hnd, Hin.
  assert (Hkeys : forall l, In l (dict_keys (_spectra self))
                            <-> In l (map label_of calls)).
  { intros l. rewrite Hin. split; [now intros [[]|?]|now right]. }
  assert (Hnd' : NoDup (dict_keys (_spectra self))) by (apply Hnd; constructor).
  repeat split.
  - now rewrite Hcs.
  - exact Hnd'.
  - apply Hkeys.
  - apply Hkeys.
  - rewrite <- (length_map fst (_spectra self)).
    fold (dict_keys (_spectra self)).
    apply NoDup_same_length; [exact Hnd'|apply NoDup_nodup|].
    intros a. rewrite nodup_In. apply Hkeys.
  - intros pre label spectrum color post before -> Hpre Hlabel.
    apply add_all_app in H. destruct H as [mid [Hmid Hpost]].
    rewrite Hpre in Hmid. inversion Hmid; subst mid. simpl in Hpost.
    destruct (add_spectrum label spectrum color before)
      as [after [[]|e]] eqn:Hadd; [|discriminate].
    destruct (add_spectrum_ok _ _ _ _ _ Hadd) as [c [Hafter _]].
    destruct (add_all_colors _ _ _ Hpost) as [later [Hlater _]].
    exists after, c, later. subst after. simpl in *. repeat split.
    + now apply dict_keys_set_present.
    + apply dict_get_set_same.
    + rewrite Hlater, <- app_assoc. reflexivity.
Qed.

(** *** [get_plot] *)

Lemma draw_spectra_xshift self v idx items base ax :
  draw_spectra (set_xshift self v) idx items base ax
  = draw_spectra self idx items base ax.
Proof.
  revert idx base ax.
  induction items as [|[key sp] items IH]; intros idx base ax.
  - reflexivity.
  - simpl. unfold dbind at 1. symmetry. unfold dbind at 1. symmetry.
    change (draw_entry (set_xshift self v) idx key sp base ax)
      with (draw_entry self idx key sp base ax).
    destruct (draw_entry self idx key sp base ax) as [ax' [base'|e]];
      [apply IH|reflexivity].
Qed.

(** [get_plot] never reads [xshift]: the calls it makes, and how it ends,
    are the same whatever the value of [xshift]. *)
Lemma get_plot_ignores_xshift self v xlim ylim :
  get_plot xlim ylim (set_xshift self v) = get_plot xlim ylim self.
Proof.
  unfold get_plot, dbind. simpl. rewrite draw_spectra_xshift. reflexivity.
Qed.

Lemma np_add_scalar (a : ndarray) (s : num) :
  np_add a (Scalar s) = Ok (map (fun v => add v s) a).
Proof. reflexivity. Qed.
End Facts.

End PlottersFacts.

(** * Plotter scenarios, with integer coordinates *)

Module PlotterScenarios.

Import Plotters.

Local Open Scope Z_scope.

Definition palette : list (@mpl_color Z_floats) :=
  [ColorStr "red"; ColorStr "blue"; ColorStr "green"].

Definition dos : @spectrum Z_floats :=
  @Build_spectrum Z_floats "pymatgen.electronic_structure.dos.Dos"
    (Some [0; 1; 2]) (Some [5; 6; 7]) (Some "Energy") (Some "Density").

Definition xas : @spectrum Z_floats :=
  @Build_spectrum Z_floats "pymatgen.analysis.xas.spectrum.XAS"
    (Some [0; 1; 2]) (Some [10; 20; 30]) (Some "Energy") (Some "Intensity").

(** An object with [x] and no [y]. *)
Definition no_y : @spectrum Z_floats :=
  @Build_spectrum Z_floats "types.SimpleNamespace"
    (Some [0; 1; 2]) None None None.

(** [SpectrumPlotter(xshift=10.0)] after [add_spectrum("total", dos)]. *)
Definition shifted : @SpectrumPlotter Z_floats :=
  fst (add_spectrum "total" dos None (init 10 0 false palette)).

(** [SpectrumPlotter(yshift=100.0, stack=True)], then one spectrum, then
    two. *)
Definition stacked1 : @SpectrumPlotter Z_floats :=
  fst (add_spectrum "dos" dos None (init 0 100 true palette)).

Definition stacked2 : @SpectrumPlotter Z_floats :=
  fst (add_spectrum "xas" xas (Some (ColorStr "k--")) stacked1).

(** Three calls, the third reusing the first label. *)
Definition three_calls
  : list (string * @spectrum Z_floats * option (@mpl_color Z_floats)) :=
  [("a", dos, Some (ColorStr "red")); ("b", xas, None);
   ("a", xas, Some (ColorStr "k--"))].

Definition after_three_calls : @SpectrumPlotter Z_floats :=
  fst (add_all three_calls (init 0 0 false palette)).

(** C3, evaluated: with [xshift=10] the one spectrum is plotted at its own
    x coordinates [0, 1, 2], not at [10, 11, 12], and the calls are those
    of the same plotter with [xshift=0]. *)
Theorem get_plot_does_not_shift_x :
  plots (fst (get_plot None None shifted))
  = [plot [0; 1; 2] [5; 6; 7] (ColorStr "blue") "total" 3]
  /\ get_plot None None shifted = get_plot None None (set_xshift shifted 0).
Proof. split; vm_compute; reflexivity. Qed.

Lemma add_spectrum_missing_attribute_witness :
  add_spectrum "bad" no_y None stacked1
  = (stacked1,
     Raise (ValueError
              ("spectrum of type=<class 'types.SimpleNamespace'> "
                 ++ "missing required attribute='y'"))).
Proof.
  destruct (PlottersFacts.add_spectrum_missing_attribute
              "bad" no_y None stacked1 (or_intror eq_refl))
    as [attribute [[[_ Hx]|[-> _]] Hraise]].
  - discriminate Hx.
  - exact Hraise.
Defined.

Lemma colors_append_only_witness :
  List.length (colors after_three_calls) = 3%nat
  /\ dict_keys (_spectra after_three_calls) = ["a"; "b"]
  /\ dict_get (_spectra after_three_calls) "a" = Some xas
  /\ colors after_three_calls
     = [ColorStr "red"; ColorStr "green"; ColorStr "k--"].
Proof.
  destruct (PlottersFacts.colors_append_only (F := Z_floats)
              0 0 false palette three_calls after_three_calls eq_refl)
    as (Hlen & _ & _ & _ & _).
  split; [exact Hlen|]. repeat split.
Defined.

End PlotterScenarios.

(** * Further facts about temp_utils.py *)

(** The group values [postprocess] is applied to for one row match: those
    of the named groups when the pattern has some, else all of them. *)
Definition captured {E : RegexEngine} (rp : pattern) (ml : rmatch)
  : list (option string) :=
  if (0 <? List.length (groupdict rp ml))%nat
  then map snd (groupdict rp ml)
  else groups ml.

(** A row holding, in order, what [postprocess] made of the group values
    of the match [ml]. *)
Definition row_from {E : RegexEngine} {V : Type}
           (postprocess : option string -> result V)
           (rp : pattern) (ml : rmatch) (r : row V) : Prop :=
  match r with
  | RowList vs => groupindex rp = [] /\ mapM postprocess (groups ml) = Ok vs
  | RowDict kvs =>
      dict_keys kvs = dict_keys (groupindex rp)
      /\ mapM postprocess (map snd (groupdict rp ml)) = Ok (map snd kvs)
  end.

Module TempUtilsMore.

Section Generic.
Context {E : RegexEngine} {V : Type}.
Variable postprocess : option string -> result V.

Lemma mapM_Forall2 {A B : Type} (f : A -> result B) (xs : list A)
      (ys : list B) :
  mapM f xs = Ok ys -> Forall2 (fun a b => f a = Ok b) xs ys.
Proof.
  revert ys. induction xs as [|a xs IH]; simpl; intros ys H.
  - inversion H. constructor.
  - destruct (f a) as [b|e] eqn:Ha; simpl in H; [|discriminate].
    destruct (mapM f xs) as [bs|e]; simpl in H; [|discriminate].
    inversion H. constructor; auto.
Qed.

Lemma mapM_total {A B : Type} (f : A -> result B) (xs : list A) :
  (forall a, In a xs -> exists b, f a = Ok b) ->
  exists ys, mapM f xs = Ok ys.
Proof.
  induction xs as [|a xs IH]; simpl; intros H.
  - now exists [].
  - destruct (H a (or_introl eq_refl)) as [b Hb].
    destruct IH as [ys Hys]; [intros a' Ha'; apply H; now right|].
    exists (b :: ys). now rewrite Hb, Hys.
Qed.

Lemma mapM_In_ok {A B : Type} (f : A -> result B) (xs : list A)
      (ys : list B) (a : A) :
  mapM f xs = Ok ys -> In a xs -> exists b, f a = Ok b.
Proof.
  revert ys. induction xs as [|a0 xs IH]; simpl; intros ys H Hin;
    [contradiction|].
  destruct (f a0) as [b|e] eqn:Ha; simpl in H; [|discriminate].
  destruct (mapM f xs) as [bs|e]; simpl in H; [|discriminate].
  destruct Hin as [<-|Hin]; [now exists b|]. now apply (IH bs).
Qed.

Lemma mapM_pairs_values (d : dict (option string)) (kvs : dict V) :
  mapM (fun kv : string * option string =>
          v <- postprocess (snd kv) ;; Ok (fst kv, v)) d = Ok kvs ->
  mapM postprocess (map snd d) = Ok (map snd kvs).
Proof.
  revert kvs. induction d as [|[k w] d IH]; simpl; intros kvs H.
  - inversion H. reflexivity.
  - destruct (postprocess w) as [v|e]; simpl in H; [|discriminate].
    destruct (mapM _ d) as [rest|e]; simpl in H; [|discriminate].
    inversion H. simpl. now rewrite (IH rest).
Qed.

Lemma process_line_row_from (rp : pattern) (ml : rmatch) (r : row V) :
  process_line postprocess rp ml = Ok r -> row_from postprocess rp ml r.
Proof.
  intros H. unfold process_line in H.
  destruct (0 <? List.length (groupdict rp ml))%nat eqn:Hlen.
  - destruct (mapM _ (groupdict rp ml)) as [kvs|e] eqn:Hm; simpl in H;
      [|discriminate].
    inversion H; subst r. simpl. split.
    + rewrite (TempUtilsFacts.mapM_pairs_keys postprocess _ _ Hm).
      apply TempUtilsFacts.groupdict_keys.
    + now apply mapM_pairs_values.
  - destruct (mapM postprocess (groups ml)) as [vs|e] eqn:Hm; simpl in H;
      [|discriminate].
    inversion H; subst r. simpl. split; [|exact Hm].
    apply Nat.ltb_ge in Hlen. apply Nat.le_0_r in Hlen.
    apply length_zero_iff_nil in Hlen.
    unfold groupdict in Hlen. now apply map_eq_nil in Hlen.
Qed.

Lemma process_line_captured (rp : pattern) (ml : rmatch) (r : row V) v :
  process_line postprocess rp ml = Ok r -> In v (captured rp ml) ->
  exists w, postprocess v = Ok w.
Proof.
  unfold process_line, captured. intros H Hin.
  destruct (0 <? List.length (groupdict rp ml))%nat.
  - destruct (mapM _ (groupdict rp ml)) as [kvs|e] eqn:Hm; simpl in H;
      [|discriminate].
    apply mapM_pairs_values in Hm. eapply mapM_In_ok; eauto.
  - destruct (mapM postprocess (groups ml)) as [vs|e] eqn:Hm; simpl in H;
      [|discriminate].
    eapply mapM_In_ok; eauto.
Qed.

Section Call.
Variables text_str header_pattern row_pattern footer_pattern : string.

Local Abbreviation composite :=
  (table_pattern_text header_pattern row_pattern footer_pattern).
Local Abbreviation call :=
  (new_read_table_pattern postprocess text_str header_pattern row_pattern
                          footer_pattern).

(** X1: [attribute_name] only wraps.  What the call returns bare without
    it, it returns with it as the dict whose single key is that name; an
    exception raised without it is raised with it. *)
Theorem attribute_name_only_wraps name last_one_only :
  match call None last_one_only with
  | Ok v =>
      exists r, v = Bare r
                /\ call (Some name) last_one_only = Ok (Data [(name, r)])
  | Raise e => call (Some name) last_one_only = Raise e
  end.
Proof.
  unfold new_read_table_pattern.
  destruct (re_compile composite _) as [tp|e]; simpl; [|reflexivity].
  destruct (re_compile row_pattern 0%Z) as [rp|e]; simpl; [|reflexivity].
  destruct (mapM _ _) as [tables|e]; simpl; [|reflexivity].
  destruct last_one_only; simpl.
  - destruct (last_item tables) as [t|e]; simpl; [|reflexivity].
    now exists (OneTable t).
  - now exists (Tables tables).
Qed.

(** X2: one table per match of the composite pattern and one row per
    match of the row pattern in that match's body, in the order of the
    matches; each row holds what [postprocess] made of its match's group
    values. *)
Theorem tables_follow_matches tp rp v :
  re_compile composite MS = Ok tp ->
  re_compile row_pattern 0%Z = Ok rp ->
  call None false = Ok v ->
  exists tables,
    v = Bare (Tables tables)
    /\ Forall2
         (fun mt t =>
            exists body,
              group tp mt "table_body" = Ok (Some body)
              /\ Forall2 (row_from postprocess rp) (finditer rp body) t)
         (finditer tp text_str) tables.
Proof.
  intros Htp Hrp Hv.
  rewrite (TempUtilsFacts.new_read_table_pattern_compiled
             postprocess _ _ _ _ None false tp rp Htp Hrp) in Hv.
  destruct (mapM _ _) as [tables|e] eqn:Htables; simpl in Hv; [|discriminate].
  inversion Hv. exists tables. split; [reflexivity|].
  apply mapM_Forall2 in Htables.
  eapply Forall2_impl; [|exact Htables].
  intros mt t Ht. unfold process_table in Ht.
  destruct (group tp mt "table_body") as [[body|]|e]; simpl in Ht;
    try discriminate.
  exists body. split; [reflexivity|].
  apply mapM_Forall2 in Ht.
  eapply Forall2_impl; [|exact Ht].
  intros ml r. apply process_line_row_from.
Qed.

(** X3: with patterns that compile, a body captured in every composite
    match and a [postprocess] that never raises, [last_one_only=False]
    returns normally, with as many tables as the composite pattern has
    matches. *)
Theorem total_postprocess_returns tp rp attribute_name :
  re_compile composite MS = Ok tp ->
  re_compile row_pattern 0%Z = Ok rp ->
  (forall mt, In mt (finditer tp text_str) ->
              exists body, group tp mt "table_body" = Ok (Some body)) ->
  (forall g, exists w, postprocess g = Ok w) ->
  exists tables,
    call attribute_name false = Ok (wrap attribute_name (Tables tables))
    /\ List.length tables = List.length (finditer tp text_str).
Proof.
  intros Htp Hrp Hbody Htotal.
  rewrite (TempUtilsFacts.new_read_table_pattern_compiled
             postprocess _ _ _ _ attribute_name false tp rp Htp Hrp).
  destruct (mapM_total (process_table postprocess tp rp)
                       (finditer tp text_str)) as [tables Htables].
  { intros mt Hmt. destruct (Hbody mt Hmt) as [body Hb].
    unfold process_table. rewrite Hb. simpl.
    apply mapM_total. intros ml _. unfold process_line.
    destruct (0 <? List.length (groupdict rp ml))%nat.
    - destruct (mapM_total
                  (fun kv : string * option string =>
                     v <- postprocess (snd kv) ;; Ok (fst kv, v))
                  (groupdict rp ml)) as [kvs Hkvs].
      + intros [k g] _. simpl. destruct (Htotal g) as [w ->]. simpl. eauto.
      + rewrite Hkvs. simpl. eauto.
    - destruct (mapM_total postprocess (groups ml)) as [vs Hvs];
        [intros g _; apply Htotal|].
      rewrite Hvs. simpl. eauto. }
  exists tables. rewrite Htables. simpl. split; [reflexivity|].
  now apply TempUtilsFacts.mapM_length in Htables.
Qed.

(** X4: no partial result.  If [postprocess] raises on one group value of
    one row of one table, the call raises, whatever [attribute_name] and
    [last_one_only] are: also when only the last table is asked for and
    the value stands in an earlier one. *)
Theorem postprocess_failure_raises
        tp rp mt body ml g e0 attribute_name last_one_only :
  re_compile composite MS = Ok tp ->
  re_compile row_pattern 0%Z = Ok rp ->
  In mt (finditer tp text_str) ->
  group tp mt "table_body" = Ok (Some body) ->
  In ml (finditer rp body) ->
  In g (captured rp ml) ->
  postprocess g = Raise e0 ->
  exists e, call attribute_name last_one_only = Raise e.
Proof.
  intros Htp Hrp Hmt Hbody Hml Hg Hraise.
  rewrite (TempUtilsFacts.new_read_table_pattern_compiled
             postprocess _ _ _ _ attribute_name last_one_only tp rp Htp Hrp).
  destruct (mapM _ _) as [tables|e] eqn:Htables; simpl; [|eauto].
  exfalso.
  destruct (mapM_In_ok _ _ _ mt Htables Hmt) as [t Ht].
  unfold process_table in Ht. rewrite Hbody in Ht. simpl in Ht.
  destruct (mapM_In_ok _ _ _ ml Ht Hml) as [r Hr].
  destruct (process_line_captured rp ml r g Hr Hg) as [w Hw].
  congruence.
Qed.
End Call.

(** *** The loop of [read_pattern], lines 13-17, on its own *)

Lemma compile_patterns_NoDup (items : dict string) (acc d : dict pattern) :
  NoDup (dict_keys acc) -> compile_patterns items acc = Ok d ->
  NoDup (dict_keys d).
Proof.
  revert acc. induction items as [|[k p] items IH]; simpl; intros acc Hnd H.
  - now inversion H; subst.
  - destruct (re_compile p _) as [c|e]; simpl in H; [|discriminate].
    apply (IH (dict_set acc k c)); [|exact H].
    now apply PlottersFacts.dict_keys_set_NoDup.
Qed.

(** The record of one match. *)
Definition record (m : rmatch) : result (list V) :=
  mapM postprocess (groups m).

Lemma scan_matches_all key ms matches matches' :
  scan_matches postprocess false key ms matches = Ok matches' ->
  (exists recs, mapM record ms = Ok recs
                /\ defaultdict_get matches' key
                   = defaultdict_get matches key ++ recs)
  /\ forall k, k <> key ->
               defaultdict_get matches' k = defaultdict_get matches k.
Proof.
  revert matches. induction ms as [|m ms IH]; simpl; intros matches H.
  - inversion H. split; [exists []; now rewrite app_nil_r|auto].
  - unfold record at 1.
    destruct (mapM postprocess (groups m)) as [rec|e]; simpl in H;
      [|discriminate].
    destruct (IH _ H) as [[recs [Hrecs Hkey]] Hother]. split.
    + exists (rec :: recs). simpl. rewrite Hrecs. simpl. split; [reflexivity|].
      rewrite Hkey, TempUtilsFacts.defaultdict_get_append.
      rewrite String.eqb_refl, <- app_assoc. reflexivity.
    + intros k Hk. rewrite (Hother k Hk).
      rewrite TempUtilsFacts.defaultdict_get_append.
      destruct (String.eqb key k) eqn:Ek; [|reflexivity].
      apply String.eqb_eq in Ek. congruence.
Qed.

Lemma scan_patterns_all text_str compiled matches0 matches :
  NoDup (dict_keys compiled) ->
  (forall k, In k (dict_keys compiled) -> defaultdict_get matches0 k = []) ->
  scan_patterns postprocess text_str false compiled matches0 = Ok matches ->
  (forall key p, In (key, p) compiled ->
                 mapM record (finditer p text_str)
                 = Ok (defaultdict_get matches key))
  /\ forall k, ~ In k (dict_keys compiled) ->
               defaultdict_get matches k = defaultdict_get matches0 k.
Proof.
  revert matches0. induction compiled as [|[key0 p0] compiled IH];
    simpl; intros matches0 Hnd Hfresh H.
  - inversion H. split; [intros ? ? []|auto].
  - destruct (scan_matches _ _ _ _ _) as [matches1|e] eqn:Hscan; simpl in H;
      [|discriminate].
    inversion Hnd as [|? ? Hnotin Hnd']; subst.
    destruct (scan_matches_all _ _ _ _ Hscan) as [[recs [Hrecs Hkey]] Hother].
    destruct (IH matches1 Hnd') as [Hin Hout]; [|exact H|].
    { intros k Hk. rewrite Hother; [apply Hfresh; now right|].
      intros ->. contradiction. }
    split.
    + intros key p [Heq|Hp].
      * inversion Heq; subst. rewrite (Hout key Hnotin), Hkey.
        rewrite (Hfresh key) by now left. exact Hrecs.
      * now apply Hin.
    + intros k Hk. rewrite Hout.
      * apply Hother. intros ->. apply Hk. now left.
      * intros Hx. apply Hk. now right.
Qed.

(** X5: the loop with [terminate_on_match], run on the patterns line 11
    compiled, leaves at most one record under every name. *)
Theorem loop_stops_at_first_match text_str patterns compiled matches :
  compile_patterns patterns [] = Ok compiled ->
  scan_patterns postprocess text_str true compiled [] = Ok matches ->
  forall key, List.length (defaultdict_get matches key) <= 1.
Proof.
  intros Hc Hs.
  apply (TempUtilsFacts.scan_patterns_at_most_one
           postprocess text_str compiled [] matches); auto.
  eapply compile_patterns_NoDup; [|exact Hc]. constructor.
Qed.

(** X6: the loop without [terminate_on_match] leaves, under the name of
    every pattern, the records of all its matches in the text, in the
    order of the matches; a record is the list of the postprocessed group
    values of one match. *)
Theorem loop_records_every_match text_str patterns compiled matches :
  compile_patterns patterns [] = Ok compiled ->
  scan_patterns postprocess text_str false compiled [] = Ok matches ->
  forall key p,
    In (key, p) compiled ->
    mapM record (finditer p text_str) = Ok (defaultdict_get matches key).
Proof.
  intros Hc Hs.
  apply (scan_patterns_all text_str compiled [] matches); auto.
  eapply compile_patterns_NoDup; [|exact Hc]. constructor.
Qed.
End Generic.

End TempUtilsMore.

(** * Further facts about plotters.py *)

Module PlottersMore.

Import Plotters.
Import PlottersFacts.

Section Adding.
Context {F : Floats}.

Lemma cycle_color_nonempty (self : SpectrumPlotter) :
  colors_cycle self <> [] ->
  exists c, cycle_color self = Ok c
            /\ nth_error (colors_cycle self)
                         (List.length (_spectra self)
                            mod List.length (colors_cycle self)) = Some c.
Proof.
  intros Hne. unfold cycle_color.
  destruct (colors_cycle self) as [|c0 cs] eqn:Hc; [congruence|].
  pose proof (Nat.mod_upper_bound (List.length (_spectra self))
                                  (List.length (c0 :: cs))) as Hlt.
  destruct (nth_error (c0 :: cs) _) as [c|] eqn:Hn.
  - exists c. now split.
  - apply nth_error_None in Hn. simpl in *. lia.
Qed.

Lemma cycle_color_empty (self : SpectrumPlotter) :
  colors_cycle self = [] -> cycle_color self = Raise ZeroDivisionError.
Proof. unfold cycle_color. now intros ->. Qed.

Lemma cycle_color_set_spectra (self : SpectrumPlotter) d :
  colors_cycle (set_spectra self d) = colors_cycle self.
Proof. reflexivity. Qed.

(** X7: [add_spectrum] returns normally exactly when the object has [x]
    and [y] and a colour can be chosen: the [color] given is truthy, or
    the palette is not empty. *)
Theorem add_spectrum_returns_iff label spectrum color self :
  (exists self', add_spectrum label spectrum color self = (self', Ok tt))
  <-> x spectrum <> None /\ y spectrum <> None
      /\ (truthy color = true \/ colors_cycle self <> []).
Proof.
  split.
  - intros [self' H]. unfold add_spectrum, check_attributes in H.
    destruct (x spectrum); [|discriminate].
    destruct (y spectrum); [|discriminate].
    repeat split; try discriminate.
    unfold color_or_cycle in H.
    destruct (truthy color) eqn:Ht; [now left|right].
    intros Hnil.
    assert (Hz : cycle_color
                   (set_spectra self (dict_set (_spectra self) label spectrum))
                 = Raise ZeroDivisionError)
      by (apply cycle_color_empty; exact Hnil).
    destruct color; rewrite Hz in H; discriminate.
  - intros (Hx & Hy & Hc). unfold add_spectrum, check_attributes.
    destruct (x spectrum); [|congruence].
    destruct (y spectrum); [|congruence].
    unfold color_or_cycle.
    destruct Hc as [Ht|Hne].
    + destruct color as [c|]; [|discriminate]. rewrite Ht. eauto.
    + destruct (cycle_color_nonempty
                  (set_spectra self (dict_set (_spectra self) label spectrum))
                  Hne) as [c [Hc _]].
      destruct color as [c0|]; [destruct (truthy (Some c0))|];
        try rewrite Hc; eauto.
Qed.

(** X8: after a call that returns, the label holds the spectrum given,
    every other label holds what it held, a label that was not stored
    comes last in the order of the entries, and the settings of the
    plotter are as before. *)
Theorem add_spectrum_stores label spectrum color self self' :
  add_spectrum label spectrum color self = (self', Ok tt) ->
  dict_get (_spectra self') label = Some spectrum
  /\ (forall other, other <> label ->
                    dict_get (_spectra self') other
                    = dict_get (_spectra self) other)
  /\ (~ In label (dict_keys (_spectra self)) ->
      dict_keys (_spectra self') = dict_keys (_spectra self) ++ [label])
  /\ (xshift self', yshift self', stack self', colors_cycle self')
     = (xshift self, yshift self, stack self, colors_cycle self).
Proof.
  intros H. apply add_spectrum_ok in H. destruct H as (c & -> & _).
  simpl. repeat split.
  - apply dict_get_set_same.
  - intros other Hother. rewrite TempUtilsFacts.dict_get_set.
    destruct (String.eqb label other) eqn:Eq; [|reflexivity].
    apply String.eqb_eq in Eq. congruence.
  - apply dict_keys_set_absent.
Qed.

(** X9: with an empty palette and no truthy [color], a spectrum that has
    [x] and [y] is stored and then the call raises [ZeroDivisionError]:
    the entry stays, and no colour is appended for it. *)
Theorem add_spectrum_empty_palette label spectrum color self :
  x spectrum <> None -> y spectrum <> None ->
  truthy color = false -> colors_cycle self = [] ->
  exists self',
    add_spectrum label spectrum color self = (self', Raise ZeroDivisionError)
    /\ dict_get (_spectra self') label = Some spectrum
    /\ colors self' = colors self.
Proof.
  intros Hx Hy Ht Hnil. unfold add_spectrum, check_attributes.
  destruct (x spectrum); [|congruence].
  destruct (y spectrum); [|congruence].
  unfold color_or_cycle.
  assert (Hz : cycle_color
                 (set_spectra self (dict_set (_spectra self) label spectrum))
               = Raise ZeroDivisionError)
    by (apply cycle_color_empty; exact Hnil).
  exists (set_spectra self (dict_set (_spectra self) label spectrum)).
  repeat split; [|apply dict_get_set_same].
  destruct color as [c|]; [rewrite Ht|]; now rewrite Hz.
Qed.

Lemma dict_set_absent_length {A : Type} (d : dict A) k (v : A) :
  ~ In k (dict_keys d) -> List.length (dict_set d k v) = S (List.length d).
Proof.
  intros H. rewrite <- (length_map fst (dict_set d k v)).
  fold (dict_keys (dict_set d k v)).
  rewrite dict_keys_set_absent by exact H.
  rewrite length_app. unfold dict_keys. rewrite length_map. simpl. lia.
Qed.

(** X10: the colour chosen for a new label when no truthy [color] is
    given is the palette's entry at the number of entries after the
    insertion, modulo the palette's length: with [n] entries stored
    before, entry [(n + 1) mod m] of a palette of [m] colours. *)
Theorem add_spectrum_cycle_color label spectrum color self :
  x spectrum <> None -> y spectrum <> None ->
  truthy color = false -> colors_cycle self <> [] ->
  ~ In label (dict_keys (_spectra self)) ->
  exists self' c,
    add_spectrum label spectrum color self = (self', Ok tt)
    /\ colors self' = colors self ++ [c]
    /\ nth_error (colors_cycle self)
                 (S (List.length (_spectra self))
                    mod List.length (colors_cycle self)) = Some c.
Proof.
  intros Hx Hy Ht Hne Hnew. unfold add_spectrum, check_attributes.
  destruct (x spectrum); [|congruence].
  destruct (y spectrum); [|congruence].
  unfold color_or_cycle.
  destruct (cycle_color_nonempty
              (set_spectra self (dict_set (_spectra self) label spectrum))
              Hne) as [c [Hc Hnth]].
  simpl in Hnth. rewrite dict_set_absent_length in Hnth by exact Hnew.
  exists (append_color
            (set_spectra self (dict_set (_spectra self) label spectrum)) c), c.
  repeat split; [|exact Hnth].
  destruct color as [c0|]; [rewrite Ht|]; now rewrite Hc.
Qed.

Lemma dict_keys_nth_present {A : Type} (d : dict A) k (v : A) i :
  nth_error (dict_keys d) i = Some k ->
  nth_error (dict_keys (dict_set d k v)) i = Some k.
Proof.
  intros H. rewrite dict_keys_set_present; [exact H|].
  eapply nth_error_In; eauto.
Qed.

(** X11: a call that reuses a stored label leaves the label at its
    position and the colours of all positions as they were; the colour
    of the call goes to the end of [colors].  As [get_plot] takes
    [colors[idx]] by position, the new spectrum is drawn in the colour
    the label had before. *)
Theorem add_spectrum_reuse_keeps_color label spectrum color self self' i :
  nth_error (dict_keys (_spectra self)) i = Some label ->
  i < List.length (colors self) ->
  add_spectrum label spectrum color self = (self', Ok tt) ->
  nth_error (dict_keys (_spectra self')) i = Some label
  /\ dict_get (_spectra self') label = Some spectrum
  /\ color_at self' i = color_at self i
  /\ exists c, colors self' = colors self ++ [c]
               /\ (truthy color = true -> color = Some c).
Proof.
  intros Hi Hlt H. apply add_spectrum_ok in H.
  destruct H as (c & -> & _ & _ & Hc). simpl. repeat split.
  - now apply dict_keys_nth_present.
  - apply dict_get_set_same.
  - unfold color_at. simpl. now rewrite nth_error_app1.
  - exists c. now split.
Qed.

(** *** Sequences of calls *)

Lemma add_all_insertion_order calls self self' :
  add_all calls self = (self', Ok tt) ->
  NoDup (map label_of calls) ->
  (forall l, In l (map label_of calls) ->
             ~ In l (dict_keys (_spectra self))) ->
  dict_keys (_spectra self')
  = dict_keys (_spectra self) ++ map label_of calls.
Proof.
  revert self. induction calls as [|[[l sp] c] calls IH]; simpl;
    intros self H Hnd Hnew.
  - inversion H. now rewrite app_nil_r.
  - destruct (add_spectrum l sp c self) as [self1 [[]|e]] eqn:Hadd;
      [|discriminate].
    apply add_spectrum_ok in Hadd. destruct Hadd as [col [-> _]].
    inversion Hnd as [|? ? Hnotin Hnd']; subst.
    assert (Hl : ~ In l (dict_keys (_spectra self)))
      by (apply Hnew; now left).
    rewrite (IH _ H Hnd').
    + simpl. rewrite dict_keys_set_absent by exact Hl.
      rewrite <- app_assoc. reflexivity.
    + intros l0 Hin. simpl. rewrite dict_keys_set_In. intros [H0| ->].
      * apply (Hnew l0); [now right|exact H0].
      * contradiction.
Qed.

Lemma add_all_lookup calls self self' :
  add_all calls self = (self', Ok tt) ->
  NoDup (map label_of calls) ->
  forall l sp c, In (l, sp, c) calls ->
                 dict_get (_spectra self') l = Some sp.
Proof.
  revert self. induction calls as [|[[l0 sp0] c0] calls IH]; simpl;
    intros self H Hnd l sp c Hin; [contradiction|].
  destruct (add_spectrum l0 sp0 c0 self) as [self1 [[]|e]] eqn:Hadd;
    [|discriminate].
  inversion Hnd as [|? ? Hnotin Hnd']; subst.
  destruct Hin as [Heq|Hin]; [|now apply (IH _ H Hnd' l sp c)].
  inversion Heq; subst.
  assert (Hkeep : forall calls' s s',
             add_all calls' s = (s', Ok tt) ->
             ~ In l (map label_of calls') ->
             dict_get (_spectra s') l = dict_get (_spectra s) l).
  { induction calls' as [|[[l1 sp1] c1] calls' IH']; simpl; intros s s' Hs Hl.
    - now inversion Hs.
    - destruct (add_spectrum l1 sp1 c1 s) as [s1 [[]|e]] eqn:Ha;
        [|discriminate].
      rewrite (IH' _ _ Hs) by tauto.
      apply add_spectrum_stores in Ha. destruct Ha as (_ & Ho & _).
      apply Ho. intros ->. apply Hl. now left. }
  rewrite (Hkeep _ _ _ H Hnotin).
  apply add_spectrum_stores in Hadd. now destruct Hadd.
Qed.

(** X12: calls that all return, with labels distinct from one another
    and from the labels stored, append their labels to the order of the
    entries in the order of the calls, and each label then holds the
    spectrum of its call. *)
Theorem add_all_distinct_labels calls self self' :
  add_all calls self = (self', Ok tt) ->
  NoDup (map label_of calls) ->
  (forall l, In l (map label_of calls) ->
             ~ In l (dict_keys (_spectra self))) ->
  dict_keys (_spectra self')
  = dict_keys (_spectra self) ++ map label_of calls
  /\ forall l sp c, In (l, sp, c) calls ->
                    dict_get (_spectra self') l = Some sp.
Proof.
  intros H Hnd Hnew. split.
  - now apply add_all_insertion_order.
  - now apply (add_all_lookup calls self self').
Qed.
End Adding.

(** *** What [get_plot] draws *)

Section Drawing.
Context {F : Floats}.

(** A spectrum that has all four attributes [get_plot] reads, stored
    under [c_label]. *)
Record curve : Type := {
  c_label : string;
  c_type : string;
  c_x : ndarray;
  c_y : ndarray;
  c_xlabel : string;
  c_ylabel : string
}.

Definition as_spectrum (c : curve) : spectrum :=
  {| type_name := c_type c; x := Some (c_x c); y := Some (c_y c);
     XLABEL := Some (c_xlabel c); YLABEL := Some (c_ylabel c) |}.

Definition as_item (c : curve) : string * spectrum :=
  (c_label c, as_spectrum c).

(** [sp.y + self.yshift * idx] *)
Definition shifted_y (self : SpectrumPlotter) (idx : nat) (c : curve)
  : ndarray :=
  map (fun v => add v (shift self idx)) (c_y c).

(** The calls after the loop. *)
Definition closing_calls (xlim ylim : option (num * num)) : list call :=
  match xlim with Some l => [set_xlim l] | None => [] end
  ++ match ylim with Some l => [set_ylim l] | None => [] end
  ++ [legend; setp_fontsize 30; tight_layout].

(** The calls for the entry at position [idx], drawn as a line in the
    colour [col]. *)
Definition line_calls (self : SpectrumPlotter)
           (e : nat * (curve * mpl_color)) : list call :=
  let '(idx, (c, col)) := e in
  [plot (c_x c) (shifted_y self idx c) col (c_label c) 3;
   set_xlabel (c_xlabel c); set_ylabel (c_ylabel c)].

(** [ys + base], elementwise. *)
Definition plus (ys : ndarray) (base : operand) : ndarray :=
  match base with
  | Scalar s => map (fun v => add v s) ys
  | Array a => zip_add ys a
  end.

(** The baselines of successive entries in stacked mode: [base] for the
    first, and for each next one the values of the entry before added to
    the baseline of the entry before. *)
Fixpoint baselines (base : operand) (yss : list ndarray) : list operand :=
  match yss with
  | [] => []
  | ys :: yss' => base :: baselines (Array (plus ys base)) yss'
  end.

(** The calls for the entry at position [idx], drawn as a filled region
    from [base]. *)
Definition fill_calls (self : SpectrumPlotter)
           (e : nat * (curve * (mpl_color * operand))) : list call :=
  let '(idx, (c, (col, base))) := e in
  [fill_between (c_x c) base (shifted_y self idx c) col (c_label c) 3;
   set_xlabel (c_xlabel c); set_ylabel (c_ylabel c)].

(** The strings passed to [set_xlabel] and to [set_ylabel], in order. *)
Definition xlabels (cs : list call) : list string :=
  flat_map (fun c => match c with set_xlabel s => [s] | _ => [] end) cs.

Definition ylabels (cs : list call) : list string :=
  flat_map (fun c => match c with set_ylabel s => [s] | _ => [] end) cs.

(** An object with the four attributes. *)
Definition drawable (sp : spectrum) : Prop :=
  x sp <> None /\ y sp <> None /\ XLABEL sp <> None /\ YLABEL sp <> None.

Lemma skipn_cons_nth {A : Type} (l : list A) n a r :
  skipn n l = a :: r -> nth_error l n = Some a /\ skipn (S n) l = r.
Proof.
  revert l. induction n as [|n IH]; intros l H.
  - destruct l; simpl in H; [discriminate|]. inversion H. now split.
  - destruct l as [|b l]; [discriminate|]. simpl in H.
    destruct (IH l H) as [H1 H2]. split; [exact H1|exact H2].
Qed.

Lemma draw_entry_line self idx c col base ax :
  stack self = false -> nth_error (colors self) idx = Some col ->
  draw_entry self idx (c_label c) (as_spectrum c) base ax
  = (ax ++ line_calls self (idx, (c, col)), Ok base).
Proof.
  intros Hs Hc. unfold draw_entry, dbind, lift, emit, dret, color_at.
  rewrite Hs. simpl. rewrite Hc. simpl.
  rewrite <- !app_assoc. reflexivity.
Qed.

Lemma draw_lines self :
  stack self = false ->
  forall cs cols unused idx base ax,
    skipn idx (colors self) = cols ++ unused ->
    List.length cols = List.length cs ->
    draw_spectra self idx (map as_item cs) base ax
    = (ax ++ concat (map (line_calls self)
                         (combine (seq idx (List.length cs))
                                  (combine cs cols))),
       Ok tt).
Proof.
  intros Hs. induction cs as [|c cs IH]; intros cols unused idx base ax Hk Hl.
  - simpl. unfold dret. now rewrite app_nil_r.
  - destruct cols as [|col cols]; [discriminate|].
    simpl in Hk. apply skipn_cons_nth in Hk. destruct Hk as [Hn Hk].
    cbn [map as_item draw_spectra fst snd]. unfold dbind at 1.
    change (c_label c, as_spectrum c) with (as_item c).
    unfold as_item at 1.
    rewrite (draw_entry_line self idx c col base ax Hs Hn).
    rewrite (IH cols unused (S idx) base _ Hk) by (simpl in Hl; lia).
    cbn [List.length seq combine map concat].
    rewrite <- app_assoc. reflexivity.
Qed.

(** X13: in line mode, for entries that have the four attributes and a
    colour each, [get_plot] raises nothing of its own and makes, for every
    entry in stored order, one [plot] call with the entry's [x] as it is,
    its [y] plus [yshift] times its position, the colour at its position
    in [colors], its label and line width 3, followed by the two axis
    label calls; then the limits that were given, the legend, the font
    size and the layout.  Colours beyond the entries are not used. *)
Theorem get_plot_lines self cs cols unused xlim ylim :
  stack self = false ->
  _spectra self = map as_item cs ->
  colors self = cols ++ unused ->
  List.length cols = List.length cs ->
  get_plot xlim ylim self
  = (concat (map (line_calls self)
                 (combine (seq 0 (List.length cs)) (combine cs cols)))
       ++ closing_calls xlim ylim,
     Ok tt).
Proof.
  intros Hs Hsp Hc Hl. unfold get_plot. unfold dbind at 1.
  rewrite Hsp.
  rewrite (draw_lines self Hs cs cols unused 0 (Scalar zero) [] Hc Hl).
  simpl app at 1. unfold closing_calls, dbind, emit, dret.
  destruct xlim, ylim; simpl; rewrite <- ?app_assoc; reflexivity.
Qed.

Lemma zip_add_length (a b : ndarray) :
  List.length (zip_add a b) = Nat.min (List.length a) (List.length b).
Proof.
  revert b. induction a as [|v a IH]; intros [|w b]; simpl; auto.
Qed.

(** A baseline that [ys + base] can be computed with, for [ys] of length
    [n]. *)
Definition fits (n : nat) (base : operand) : Prop :=
  match base with
  | Scalar _ => True
  | Array a => List.length a = n
  end.

Lemma np_add_fits ys base :
  fits (List.length ys) base -> np_add ys base = Ok (plus ys base).
Proof.
  destruct base as [s|a]; simpl; intros H; [reflexivity|].
  rewrite H, Nat.eqb_refl. reflexivity.
Qed.

Lemma plus_length ys base :
  fits (List.length ys) base ->
  List.length (plus ys base) = List.length ys.
Proof.
  destruct base as [s|a]; simpl; intros H.
  - apply length_map.
  - rewrite zip_add_length, H. apply Nat.min_id.
Qed.

Lemma draw_entry_fill self idx c col base ax :
  stack self = true -> nth_error (colors self) idx = Some col ->
  fits (List.length (c_y c)) base ->
  draw_entry self idx (c_label c) (as_spectrum c) base ax
  = (ax ++ fill_calls self (idx, (c, (col, base))),
     Ok (Array (plus (c_y c) base))).
Proof.
  intros Hs Hc Hfit. unfold draw_entry, dbind, lift, emit, dret, color_at.
  rewrite Hs. cbn -[np_add]. rewrite Hc. cbn -[np_add].
  rewrite !np_add_scalar. cbn -[np_add].
  rewrite (np_add_fits _ _ Hfit). cbn -[np_add].
  rewrite <- !app_assoc. reflexivity.
Qed.

Lemma draw_fills self n :
  stack self = true ->
  forall cs cols unused idx base ax,
    skipn idx (colors self) = cols ++ unused ->
    List.length cols = List.length cs ->
    Forall (fun c => List.length (c_y c) = n) cs ->
    fits n base ->
    draw_spectra self idx (map as_item cs) base ax
    = (ax ++ concat (map (fill_calls self)
                         (combine (seq idx (List.length cs))
                                  (combine cs
                                     (combine cols
                                        (baselines base (map c_y cs)))))),
       Ok tt).
Proof.
  intros Hs. induction cs as [|c cs IH];
    intros cols unused idx base ax Hk Hl Hn Hfit.
  - simpl. unfold dret. now rewrite app_nil_r.
  - destruct cols as [|col cols]; [discriminate|].
    simpl in Hk. apply skipn_cons_nth in Hk. destruct Hk as [Hc Hk].
    pose proof (Forall_inv Hn) as Hlen. simpl in Hlen.
    pose proof (Forall_inv_tail Hn) as Hn'.
    assert (Hl' : List.length cols = List.length cs) by (simpl in Hl; lia).
    assert (Hfit0 : fits (List.length (c_y c)) base) by now rewrite Hlen.
    assert (Hfit' : fits n (Array (plus (c_y c) base)))
      by (simpl; now rewrite plus_length).
    cbn [map as_item draw_spectra fst snd]. unfold dbind at 1.
    change (c_label c, as_spectrum c) with (as_item c).
    unfold as_item at 1.
    rewrite (draw_entry_fill self idx c col base ax Hs Hc Hfit0).
    rewrite (IH cols unused (S idx) _ _ Hk Hl' Hn' Hfit').
    cbn [List.length seq combine map concat baselines].
    rewrite <- app_assoc. reflexivity.
Qed.

(** X14: in stacked mode, for entries that have the four attributes, a
    colour each and [y] arrays of one length, [get_plot] raises nothing
    of its own and makes one [fill_between] call per entry in stored
    order.  The region of an entry goes from its baseline to its own [y]
    plus [yshift] times its position; the baseline is [0.0] for the first
    entry and, for each next one, the [y] of the entry before added to
    that entry's baseline.  So the baselines are running sums of the [y]
    values without [yshift], and the upper edge of a region is not its
    baseline plus its values. *)
Theorem get_plot_stacked self cs cols unused n xlim ylim :
  stack self = true ->
  _spectra self = map as_item cs ->
  colors self = cols ++ unused ->
  List.length cols = List.length cs ->
  Forall (fun c => List.length (c_y c) = n) cs ->
  get_plot xlim ylim self
  = (concat (map (fill_calls self)
                 (combine (seq 0 (List.length cs))
                          (combine cs
                             (combine cols
                                (baselines (Scalar zero) (map c_y cs))))))
       ++ closing_calls xlim ylim,
     Ok tt).
Proof.
  intros Hs Hsp Hc Hl Hn. unfold get_plot. unfold dbind at 1.
  rewrite Hsp.
  rewrite (draw_fills self n Hs cs cols unused 0 (Scalar zero) [] Hc Hl Hn I).
  simpl app at 1. unfold closing_calls, dbind, emit, dret.
  destruct xlim, ylim; simpl; rewrite <- ?app_assoc; reflexivity.
Qed.

(** *** After a sequence of calls *)

Lemma dict_set_Forall (P : spectrum -> Prop) (d : dict spectrum) k v :
  Forall (fun it => P (snd it)) d -> P v ->
  Forall (fun it => P (snd it)) (dict_set d k v).
Proof.
  intros Hd Hv. induction Hd as [|[k0 v0] d H0 Hd IH]; simpl.
  - now repeat constructor.
  - destruct (String.eqb k0 k); constructor; auto.
Qed.

(** A call whose spectrum has the two axis labels. *)
Definition labelled (c : string * spectrum * option mpl_color) : Prop :=
  XLABEL (snd (fst c)) <> None /\ YLABEL (snd (fst c)) <> None.

Lemma add_all_drawable calls self self' :
  add_all calls self = (self', Ok tt) ->
  Forall labelled calls ->
  Forall (fun it => drawable (snd it)) (_spectra self) ->
  Forall (fun it => drawable (snd it)) (_spectra self').
Proof.
  revert self. induction calls as [|[[l sp] c] calls IH]; simpl;
    intros self H Hlab Hd.
  - now inversion H; subst.
  - destruct (add_spectrum l sp c self) as [self1 [[]|e]] eqn:Hadd;
      [|discriminate].
    apply add_spectrum_ok in Hadd. destruct Hadd as (col & -> & Hx & Hy & _).
    apply (IH _ H); [now apply Forall_inv_tail in Hlab|].
    simpl. apply dict_set_Forall; [exact Hd|].
    apply Forall_inv in Hlab. destruct Hlab as [Hxl Hyl]. simpl in *.
    now repeat split.
Qed.

Lemma drawable_items (d : dict spectrum) :
  Forall (fun it => drawable (snd it)) d -> exists cs, d = map as_item cs.
Proof.
  induction 1 as [|[k sp] d (Hx & Hy & Hxl & Hyl) _ [cs ->]].
  - now exists [].
  - destruct sp as [tn [xs|] [ys|] [xl|] [yl|]]; simpl in *; try congruence.
    exists ({| c_label := k; c_type := tn; c_x := xs; c_y := ys;
               c_xlabel := xl; c_ylabel := yl |} :: cs).
    reflexivity.
Qed.

Lemma plots_line_calls self l rest :
  List.length (plots (concat (map (line_calls self) l) ++ rest))
  = List.length l + List.length (plots rest).
Proof.
  induction l as [|[idx [c col]] l IH]; simpl; [reflexivity|].
  now rewrite IH.
Qed.

Lemma plots_closing_calls xlim ylim : plots (closing_calls xlim ylim) = [].
Proof. destruct xlim, ylim; reflexivity. Qed.

(** X15: a new plotter in line mode, filled by calls that all returned
    and whose spectra have the two axis labels: [get_plot] raises nothing
    of its own, and it draws one line for each stored entry.  In
    particular [colors] never runs short. *)
Theorem get_plot_after_adds xshift yshift palette calls self xlim ylim :
  add_all calls (init xshift yshift false palette) = (self, Ok tt) ->
  Forall labelled calls ->
  snd (get_plot xlim ylim self) = Ok tt
  /\ List.length (plots (fst (get_plot xlim ylim self)))
     = List.length (_spectra self).
Proof.
  intros H Hlab.
  destruct (drawable_items (_spectra self)) as [cs Hcs].
  { apply (add_all_drawable _ _ _ H Hlab). constructor. }
  destruct (add_all_colors _ _ _ H) as [cols [Hcols Hlen]]. simpl in Hcols.
  destruct (add_all_keys _ _ _ H) as [Hnd Hin]. simpl in Hnd, Hin.
  assert (Hle : List.length cs <= List.length (colors self)).
  { rewrite Hcols, Hlen, <- (length_map as_item cs), <- Hcs.
    rewrite <- (length_map fst (_spectra self)).
    rewrite <- (length_map label_of calls).
    apply NoDup_incl_length; [apply Hnd; constructor|].
    intros l Hl. apply Hin in Hl. now destruct Hl. }
  assert (Hstack : stack self = false).
  { clear - H. remember (init xshift yshift false palette) as s0 eqn:Hs0.
    assert (Hs : stack s0 = false) by now subst.
    clear Hs0. revert s0 H Hs.
    induction calls as [|[[l sp] c] calls IH]; simpl; intros s0 H Hs.
    - now inversion H; subst.
    - destruct (add_spectrum l sp c s0) as [s1 [[]|e]] eqn:Hadd;
        [|discriminate].
      apply (IH _ H). apply add_spectrum_stores in Hadd.
      destruct Hadd as (_ & _ & _ & Heq). inversion Heq. congruence. }
  rewrite (get_plot_lines self cs (firstn (List.length cs) (colors self))
                          (skipn (List.length cs) (colors self)) xlim ylim
                          Hstack Hcs).
  - simpl. split; [reflexivity|].
    rewrite plots_line_calls, plots_closing_calls, Hcs, !length_combine.
    rewrite length_seq, length_firstn, !length_map. simpl. lia.
  - now rewrite firstn_skipn.
  - rewrite length_firstn. lia.
Qed.

Lemma draw_entry_labels self idx key sp base ax ax' base' :
  draw_entry self idx key sp base ax = (ax', Ok base') ->
  exists xl yl,
    XLABEL sp = Some xl /\ YLABEL sp = Some yl
    /\ xlabels ax' = xlabels ax ++ [xl]
    /\ ylabels ax' = ylabels ax ++ [yl].
Proof.
  unfold draw_entry, dbind, lift, emit, dret, getattr, color_at.
  intros H.
  destruct (stack self); cbn -[np_add] in H;
    (destruct (x sp); cbn -[np_add] in H; [|discriminate]);
    (destruct (y sp); cbn -[np_add] in H; [|discriminate]);
    rewrite ?np_add_scalar in H; cbn -[np_add] in H;
    (destruct (nth_error (colors self) idx); cbn -[np_add] in H;
     [|discriminate]);
    try (destruct (np_add _ base); cbn -[np_add] in H; [|discriminate]);
    (destruct (XLABEL sp) as [xl|]; cbn -[np_add] in H; [|discriminate]);
    (destruct (YLABEL sp) as [yl|]; cbn -[np_add] in H; [|discriminate]);
    inversion H; subst; exists xl, yl;
    unfold xlabels, ylabels; rewrite !flat_map_app; simpl;
    rewrite ?app_nil_r; repeat split; reflexivity.
Qed.

Lemma draw_spectra_labels self items :
  forall idx base ax ax',
    draw_spectra self idx items base ax = (ax', Ok tt) ->
    map Some (xlabels ax')
    = map Some (xlabels ax) ++ map (fun it => XLABEL (snd it)) items
    /\ map Some (ylabels ax')
       = map Some (ylabels ax) ++ map (fun it => YLABEL (snd it)) items.
Proof.
  induction items as [|[key sp] items IH]; simpl; intros idx base ax ax' H.
  - unfold dret in H. inversion H. now rewrite !app_nil_r.
  - unfold dbind in H at 1.
    destruct (draw_entry self idx key sp base ax) as [ax1 [base1|e]] eqn:He;
      [|discriminate].
    destruct (draw_entry_labels _ _ _ _ _ _ _ _ He)
      as (xl & yl & Hxl & Hyl & Hx & Hy).
    destruct (IH _ _ _ _ H) as [IHx IHy].
    rewrite IHx, IHy, Hx, Hy, Hxl, Hyl, !map_app, <- !app_assoc.
    now split.
Qed.

(** X16: when [get_plot] returns, it has called [set_xlabel] and
    [set_ylabel] once per stored entry, in stored order, with that
    entry's [XLABEL] and [YLABEL]: the axes end with the labels of the
    last entry, whatever the labels of the others. *)
Theorem get_plot_axis_labels self xlim ylim log :
  get_plot xlim ylim self = (log, Ok tt) ->
  map Some (xlabels log) = map (fun it => XLABEL (snd it)) (_spectra self)
  /\ map Some (ylabels log) = map (fun it => YLABEL (snd it)) (_spectra self).
Proof.
  unfold get_plot. unfold dbind at 1. intros H.
  destruct (draw_spectra self 0 (_spectra self) (Scalar zero) [])
    as [ax1 [[]|e]] eqn:Hd; [|discriminate].
  destruct (draw_spectra_labels _ _ _ _ _ _ Hd) as [Hx Hy].
  simpl in Hx, Hy. rewrite <- Hx, <- Hy.
  unfold dbind, emit, dret in H.
  destruct xlim, ylim; inversion H; unfold xlabels, ylabels;
    rewrite !flat_map_app; simpl; rewrite ?app_nil_r; now split.
Qed.
End Drawing.

(** *** [add_spectra] *)

Section AddSpectra.
Context {F : Floats}.

(** An object with [x] and [y]. *)
Definition has_xy (sp : spectrum) : Prop := x sp <> None /\ y sp <> None.

(** The calls [add_spectra] makes for [items]. *)
Definition calls_of (items : list (string * spectrum))
  : list (string * spectrum * option mpl_color) :=
  map (fun it => (fst it, snd it, None)) items.

(** The order of keys that [sorted] leaves: a label does not come after
    one whose key is greater. *)
Definition key_ordered (k : sort_key) (a b : string) : Prop :=
  key_lt k (key_sort_func k b) (key_sort_func k a) = false.

Lemma insert_item_perm k a l : Permutation (insert_item k a l) (a :: l).
Proof.
  induction l as [|b l IH]; simpl; [reflexivity|].
  destruct (key_lt k _ _); [|reflexivity].
  rewrite IH. apply perm_swap.
Qed.

Lemma sorted_items_perm k d : Permutation (sorted_items k d) d.
Proof.
  induction d as [|a d IH]; simpl; [reflexivity|].
  rewrite insert_item_perm. now constructor.
Qed.

Lemma insert_item_sorted k a l :
  (forall u v, key_lt k u v = true -> key_lt k v u = false) ->
  (forall u v w, key_lt k v u = false -> key_lt k w v = false ->
                 key_lt k w u = false) ->
  StronglySorted (key_ordered k) (map fst l) ->
  StronglySorted (key_ordered k) (map fst (insert_item k a l)).
Proof.
  intros Hasym Htrans. induction l as [|b l IH]; simpl; intros Hs.
  - repeat constructor.
  - apply StronglySorted_inv in Hs. destruct Hs as [Hs Hb].
    destruct (key_lt k (key_sort_func k (fst b)) (key_sort_func k (fst a)))
      eqn:Hlt; simpl.
    + constructor; [now apply IH|].
      rewrite Forall_forall. intros c Hc.
      apply (Permutation_in _ (Permutation_map fst (insert_item_perm k a l)))
        in Hc.
      destruct Hc as [<-|Hc].
      * unfold key_ordered. now apply Hasym.
      * rewrite Forall_forall in Hb. now apply Hb.
    + constructor; [now constructor|].
      constructor; [exact Hlt|].
      rewrite Forall_forall in *. intros c Hc. unfold key_ordered in *.
      apply (Htrans _ (key_sort_func k (fst b))); [exact Hlt|now apply Hb].
Qed.

Lemma sorted_items_sorted k d :
  (forall u v, key_lt k u v = true -> key_lt k v u = false) ->
  (forall u v w, key_lt k v u = false -> key_lt k w v = false ->
                 key_lt k w u = false) ->
  StronglySorted (key_ordered k) (map fst (sorted_items k d)).
Proof.
  intros Hasym Htrans. induction d as [|a d IH]; simpl; [constructor|].
  now apply insert_item_sorted.
Qed.

Lemma add_all_valid calls self :
  Forall (fun c => has_xy (snd (fst c))) calls ->
  colors_cycle self <> [] ->
  exists self', add_all calls self = (self', Ok tt).
Proof.
  revert self. induction calls as [|[[l sp] c] calls IH]; simpl;
    intros self Hv Hp.
  - eauto.
  - pose proof (Forall_inv Hv) as [Hx Hy]. simpl in Hx, Hy.
    destruct (proj2 (add_spectrum_returns_iff l sp c self)) as [self1 H1];
      [now repeat split; try right|].
    rewrite H1. apply IH; [now apply Forall_inv_tail in Hv|].
    apply add_spectrum_stores in H1. destruct H1 as (_ & _ & _ & Heq).
    inversion Heq. congruence.
Qed.

Lemma add_all_raises_after pre rest self mid :
  add_all pre self = (mid, Ok tt) ->
  add_all (pre ++ rest) self = add_all rest mid.
Proof.
  revert self. induction pre as [|[[l sp] c] pre IH]; simpl; intros self H.
  - now inversion H.
  - destruct (add_spectrum l sp c self) as [s1 [[]|e]]; [|discriminate].
    now apply IH.
Qed.

Lemma calls_of_labels items : map label_of (calls_of items) = map fst items.
Proof.
  unfold calls_of, label_of. rewrite map_map. reflexivity.
Qed.



Lemma add_spectrum_first_missing label spectrum color self :
  x spectrum = None \/ y spectrum = None ->
  exists attribute,
    (attribute = "x" /\ x spectrum = None
     \/ attribute = "y" /\ x spectrum <> None /\ y spectrum = None)
    /\ add_spectrum label spectrum color self
       = (self, Raise (ValueError (missing_attribute spectrum attribute))).
Proof.
  intros H. unfold add_spectrum, check_attributes.
  destruct (x spectrum) as [xs|] eqn:Hx.
  - destruct H as [H|H]; [discriminate|]. rewrite H.
    exists "y". split; [right; repeat split; discriminate|reflexivity].
  - exists "x". split; [left; now split|reflexivity].
Qed.


(** X18: with a key function whose [<] is asymmetric and whose "not
    less" is transitive, [add_spectra] on a plotter that stores none of
    the dict's labels appends the labels in the order of their keys: what
    it returns stores, after the labels it had, the dict's labels, none
    after one with a greater key.  That is the order [get_plot] draws
    them in. *)
Theorem add_spectra_key_order spectra_dict k self self' :
  (forall u v, key_lt k u v = true -> key_lt k v u = false) ->
  (forall u v w, key_lt k v u = false -> key_lt k w v = false ->
                 key_lt k w u = false) ->
  NoDup (dict_keys spectra_dict) ->
  (forall l, In l (dict_keys spectra_dict) ->
             ~ In l (dict_keys (_spectra self))) ->
  add_spectra spectra_dict (Some k) self = (self', Ok tt) ->
  exists added,
    dict_keys (_spectra self') = dict_keys (_spectra self) ++ added
    /\ Permutation added (dict_keys spectra_dict)
    /\ StronglySorted (key_ordered k) added.
Proof.
  intros Hasym Htrans Hnd Hnew H. unfold add_spectra in H.
  fold (calls_of (sorted_items k spectra_dict)) in H.
  pose proof (sorted_items_perm k spectra_dict) as Hperm.
  exists (map fst (sorted_items k spectra_dict)). split; [|split].
  - rewrite <- calls_of_labels.
    apply add_all_insertion_order; [exact H| |].
    + rewrite calls_of_labels.
      eapply Permutation_NoDup; [|exact Hnd].
      symmetry. now apply Permutation_map.
    + intros l Hl. rewrite calls_of_labels in Hl. apply Hnew.
      eapply Permutation_in; [|exact Hl]. now apply Permutation_map.
  - now apply Permutation_map.
  - now apply sorted_items_sorted.
Qed.

(** X19: [add_spectra] is not all-or-nothing.  Without a key function,
    when the first item whose spectrum lacks [x] or [y] comes after items
    that are in order, the call ends in the state that adding those
    earlier items alone leaves, and raises the [ValueError] of the
    offending item, naming its type and its first missing attribute.  So
    the items before it have been added (the plotter has their spectra
    and one more colour for each), and neither the offending item nor any
    item after it has: the labels stored are those stored before the call
    and those of the earlier items. *)
Theorem add_spectra_keeps_earlier pre label bad post self :
  Forall (fun it => has_xy (snd it)) pre ->
  colors_cycle self <> [] ->
  NoDup (dict_keys pre) ->
  x bad = None \/ y bad = None ->
  exists self' attribute,
    add_all (calls_of pre) self = (self', Ok tt)
    /\ (attribute = "x" /\ x bad = None
        \/ attribute = "y" /\ x bad <> None /\ y bad = None)
    /\ add_spectra (pre ++ (label, bad) :: post) None self
       = (self', Raise (ValueError (missing_attribute bad attribute)))
    /\ List.length (colors self')
       = List.length (colors self) + List.length pre
    /\ (forall l sp, In (l, sp) pre ->
                     dict_get (_spectra self') l = Some sp)
    /\ (forall l, In l (dict_keys (_spectra self'))
                  <-> In l (dict_keys (_spectra self))
                      \/ In l (dict_keys pre)).
Proof.
  intros Hv Hp Hnd Hbad. unfold add_spectra.
  fold (calls_of (pre ++ (label, bad) :: post)).
  unfold calls_of. rewrite map_app. fold (calls_of pre). simpl.
  destruct (add_all_valid (calls_of pre) self) as [mid Hmid]; [|exact Hp|].
  { unfold calls_of. rewrite Forall_map. exact Hv. }
  rewrite (add_all_raises_after _ _ _ _ Hmid). simpl.
  destruct (add_spectrum_first_missing label bad None mid Hbad)
    as [attribute [Hattr Hraise]].
  rewrite Hraise. exists mid, attribute.
  split; [exact Hmid|]. split; [exact Hattr|]. split; [reflexivity|].
  split; [|split].
  - destruct (add_all_colors _ _ _ Hmid) as [cs [-> Hlen]].
    rewrite length_app, Hlen. unfold calls_of. now rewrite length_map.
  - intros l sp Hin.
    apply (add_all_lookup (calls_of pre) self mid Hmid) with (c := None).
    + now rewrite calls_of_labels.
    + unfold calls_of.
      apply (in_map (fun it => (fst it, snd it, None)) pre (l, sp) Hin).
  - intros l. destruct (add_all_keys _ _ _ Hmid) as [_ Hin].
    rewrite Hin, calls_of_labels. reflexivity.
Qed.
End AddSpectra.

End PlottersMore.

(** * Further scenarios *)

Module MoreScenarios.

Import Scenarios.
#[local] Existing Instance Sre.engine.

(** Two blocks, the first with a row that is no number. *)
Definition word_text : string :=
  "BEGIN" ++ nl ++ "A x" ++ nl ++ "END" ++ nl
          ++ "BEGIN" ++ nl ++ "A 1" ++ nl ++ "END".

Definition word_tp : @pattern Sre.engine :=
  Eval vm_compute in
    compiled_or_empty (table_pattern_text "BEGIN\n" "A (\w+)\n" "END") MS.

Definition word_rp : @pattern Sre.engine :=
  Eval vm_compute in compiled_or_empty "A (\w+)\n" 0.

Definition no_match : rmatch :=
  {| m_span := (0, 0)%nat; m_group0 := ""; m_groups := [] |}.

(** The first block of [word_text], and its row. *)
Definition word_mt : rmatch :=
  Eval vm_compute in hd no_match (finditer word_tp word_text).

Definition word_body : string := "A x" ++ nl.

Definition word_ml : rmatch :=
  Eval vm_compute in hd no_match (finditer word_rp word_body).

(** The mapping [{"key": "a(\d)"}], compiled by line 11. *)
Definition key_compiled : dict (@pattern Sre.engine) :=
  Eval vm_compute in
    match compile_patterns [("key", "a(\d)")] [] with
    | Ok c => c
    | Raise _ => []
    end.

Definition key_pattern : @pattern Sre.engine :=
  Eval vm_compute in compiled_or_empty "a(\d)" MS.

Lemma tables_follow_matches_witness :
  exists tables,
    Bare (Tables [[RowList [1%Z]; RowList [2%Z]]]) = Bare (Tables tables)
    /\ Forall2
         (fun mt t =>
            exists body,
              group scenario_tp mt "table_body" = Ok (Some body)
              /\ Forall2 (row_from PyInt.int scenario_rp)
                         (finditer scenario_rp body) t)
         (finditer scenario_tp scenario_text) tables.
Proof.
  apply (TempUtilsMore.tables_follow_matches PyInt.int scenario_text
           "BEGIN\n" "A (\d+)\n" "END" scenario_tp scenario_rp);
    vm_compute; reflexivity.
Defined.

Lemma total_postprocess_returns_witness :
  exists tables,
    new_read_table_pattern py_str two_tables_text
                           "BEGIN\n" "A (\d+)\n" "END" (Some "efg") false
    = Ok (Data [("efg", Tables tables)])
    /\ List.length tables = 2%nat.
Proof.
  apply (TempUtilsMore.total_postprocess_returns py_str two_tables_text
           "BEGIN\n" "A (\d+)\n" "END" scenario_tp scenario_rp (Some "efg")).
  - vm_compute. reflexivity.
  - vm_compute. reflexivity.
  - intros mt Hmt. vm_compute in Hmt.
    destruct Hmt as [<-|[<-|[]]]; eexists; cbv; reflexivity.
  - intros [g|]; eexists; reflexivity.
Defined.

Lemma postprocess_failure_raises_witness :
  PyInt.int (Some "x") = Raise PyInt.invalid_literal
  /\ exists e,
       new_read_table_pattern PyInt.int word_text
                              "BEGIN\n" "A (\w+)\n" "END" None true
       = Raise e.
Proof.
  split; [reflexivity|].
  apply (TempUtilsMore.postprocess_failure_raises PyInt.int word_text
           "BEGIN\n" "A (\w+)\n" "END" word_tp word_rp
           word_mt word_body word_ml (Some "x") PyInt.invalid_literal
           None true).
  - vm_compute. reflexivity.
  - vm_compute. reflexivity.
  - vm_compute. now left.
  - vm_compute. reflexivity.
  - vm_compute. now left.
  - vm_compute. now left.
  - reflexivity.
Defined.

Lemma loop_stops_at_first_match_witness :
  scan_patterns py_str "a1 a2" true key_compiled [] = Ok [("key", [["1"]])]
  /\ List.length (defaultdict_get [("key", [["1"]])] "key") <= 1.
Proof.
  assert (H : scan_patterns py_str "a1 a2" true key_compiled []
              = Ok [("key", [["1"]])]) by (vm_compute; reflexivity).
  split; [exact H|].
  apply (TempUtilsMore.loop_stops_at_first_match py_str "a1 a2"
           [("key", "a(\d)")] key_compiled [("key", [["1"]])] eq_refl H).
Defined.

Lemma loop_records_every_match_witness :
  mapM (TempUtilsMore.record py_str) (finditer key_pattern "a1 a2")
  = Ok (defaultdict_get [("key", [["1"]; ["2"]])] "key").
Proof.
  apply (TempUtilsMore.loop_records_every_match py_str "a1 a2"
           [("key", "a(\d)")] key_compiled [("key", [["1"]; ["2"]])]).
  - vm_compute. reflexivity.
  - vm_compute. reflexivity.
  - vm_compute. now left.
Defined.

End MoreScenarios.

(** * Further plotter scenarios, with integer coordinates *)

Module MorePlotterScenarios.

Import Plotters.
Import PlottersFacts.
Import PlottersMore.
Import PlotterScenarios.

Local Open Scope Z_scope.

Definition dos_curve : @curve Z_floats :=
  @Build_curve Z_floats "dos" "pymatgen.electronic_structure.dos.Dos"
               [0; 1; 2] [5; 6; 7] "Energy" "Density".

Definition xas_curve : @curve Z_floats :=
  @Build_curve Z_floats "xas" "pymatgen.analysis.xas.spectrum.XAS"
               [0; 1; 2] [10; 20; 30] "Energy" "Intensity".

(** Two entries in line mode, with [yshift=100]. *)
Definition two_calls
  : list (string * @spectrum Z_floats * option (@mpl_color Z_floats)) :=
  [("dos", dos, None); ("xas", xas, Some (ColorStr "k--"))].

Definition lines2 : @SpectrumPlotter Z_floats :=
  fst (add_all two_calls (@init Z_floats 0 100 false palette)).

(** A plotter without palette. *)
Definition no_palette : @SpectrumPlotter Z_floats :=
  @init Z_floats 0 0 false [].

(** Labels ordered by their length. *)
Definition by_length : @sort_key :=
  {| key_type := nat; key_sort_func := String.length; key_lt := Nat.ltb |}.

Definition spectra_dict : dict (@spectrum Z_floats) :=
  [("total", dos); ("s", xas); ("pd", dos)].

Lemma add_spectrum_stores_witness :
  dict_get (_spectra stacked2) "xas" = Some xas
  /\ dict_get (_spectra stacked2) "dos" = dict_get (_spectra stacked1) "dos"
  /\ dict_keys (_spectra stacked2) = dict_keys (_spectra stacked1) ++ ["xas"].
Proof.
  destruct (add_spectrum_stores (F := Z_floats) "xas" xas
              (Some (ColorStr "k--")) stacked1 stacked2 eq_refl)
    as (Hget & Hother & Hnew & _).
  split; [exact Hget|]. split.
  - apply Hother. discriminate.
  - apply Hnew. simpl. intros [H|[]]. discriminate.
Defined.

Lemma add_spectrum_empty_palette_witness :
  exists self',
    add_spectrum "dos" dos (Some (ColorStr "")) no_palette
    = (self', Raise ZeroDivisionError)
    /\ dict_get (_spectra self') "dos" = Some dos
    /\ colors self' = colors no_palette.
Proof.
  apply (add_spectrum_empty_palette (F := Z_floats));
    try discriminate; reflexivity.
Defined.

Lemma add_spectrum_cycle_color_witness :
  exists self' c,
    add_spectrum "xas" xas None stacked1 = (self', Ok tt)
    /\ colors self' = colors stacked1 ++ [c]
    /\ nth_error [ColorStr "red"; ColorStr "blue"; ColorStr "green"] 2%nat
       = Some c.
Proof.
  apply (add_spectrum_cycle_color (F := Z_floats) "xas" xas None stacked1);
    try discriminate; try reflexivity.
  simpl. intros [H|[]]. discriminate.
Defined.

Lemma add_spectrum_reuse_keeps_color_witness :
  color_at (fst (add_spectrum "dos" xas (Some (ColorStr "k--")) stacked1))
           0%nat
  = Ok (ColorStr "blue")
  /\ dict_get
       (_spectra (fst (add_spectrum "dos" xas (Some (ColorStr "k--"))
                                    stacked1))) "dos"
     = Some xas.
Proof.
  destruct (add_spectrum_reuse_keeps_color (F := Z_floats) "dos" xas
              (Some (ColorStr "k--")) stacked1
              (fst (add_spectrum "dos" xas (Some (ColorStr "k--")) stacked1))
              0%nat eq_refl (le_n 1) eq_refl)
    as (_ & Hget & Hcol & _).
  split; [|exact Hget]. rewrite Hcol. reflexivity.
Defined.

Lemma add_all_distinct_labels_witness :
  dict_keys (_spectra lines2) = ["dos"; "xas"]
  /\ dict_get (_spectra lines2) "xas" = Some xas.
Proof.
  assert (Hnd : NoDup (map label_of two_calls)).
  { simpl. constructor; [intros [H|[]]; discriminate|].
    constructor; [intros []|constructor]. }
  destruct (add_all_distinct_labels (F := Z_floats) two_calls
              (@init Z_floats 0 100 false palette) lines2 eq_refl Hnd)
    as [Hkeys Hget].
  - intros l _ [].
  - split; [exact Hkeys|].
    apply (Hget "xas" xas (Some (ColorStr "k--"))). right. now left.
Defined.

Lemma get_plot_lines_witness :
  get_plot (Some (0, 2)) None lines2
  = ([plot [0; 1; 2] [5; 6; 7] (ColorStr "blue") "dos" 3;
      set_xlabel "Energy"; set_ylabel "Density";
      plot [0; 1; 2] [110; 120; 130] (ColorStr "k--") "xas" 3;
      set_xlabel "Energy"; set_ylabel "Intensity";
      set_xlim (0, 2); legend; setp_fontsize 30; tight_layout],
     Ok tt).
Proof.
  exact (get_plot_lines (F := Z_floats) lines2 [dos_curve; xas_curve]
           [ColorStr "blue"; ColorStr "k--"] [] (Some (0, 2)) None
           eq_refl eq_refl eq_refl eq_refl).
Defined.

Lemma get_plot_stacked_witness :
  fills (fst (get_plot None None
                       (fst (add_spectrum "sum" dos None stacked2))))
  = [fill_between [0; 1; 2] (Scalar 0) [5; 6; 7] (ColorStr "blue") "dos" 3;
     fill_between [0; 1; 2] (Array [5; 6; 7]) [110; 120; 130]
                  (ColorStr "k--") "xas" 3;
     fill_between [0; 1; 2] (Array [15; 26; 37]) [205; 206; 207]
                  (ColorStr "red") "sum" 3].
Proof.
  rewrite (get_plot_stacked (F := Z_floats)
             (fst (add_spectrum "sum" dos None stacked2))
             [dos_curve; xas_curve;
              @Build_curve Z_floats "sum"
                           "pymatgen.electronic_structure.dos.Dos"
                           [0; 1; 2] [5; 6; 7] "Energy" "Density"]
             [ColorStr "blue"; ColorStr "k--"; ColorStr "red"] [] 3
             None None eq_refl eq_refl eq_refl eq_refl).
  - reflexivity.
  - repeat constructor.
Defined.

Lemma get_plot_after_adds_witness :
  snd (get_plot None None lines2) = Ok tt
  /\ List.length (plots (fst (get_plot None None lines2))) = 2%nat.
Proof.
  apply (get_plot_after_adds (F := Z_floats) 0 100 palette two_calls lines2
           None None eq_refl).
  repeat constructor; discriminate.
Defined.

Lemma get_plot_axis_labels_witness :
  map Some (xlabels (fst (get_plot None None lines2)))
  = [Some "Energy"; Some "Energy"]
  /\ map Some (ylabels (fst (get_plot None None lines2)))
     = [Some "Density"; Some "Intensity"].
Proof.
  apply (get_plot_axis_labels (F := Z_floats) lines2 None None
           (fst (get_plot None None lines2)) eq_refl).
Defined.


Lemma by_length_asymmetric (u v : nat) :
  Nat.ltb u v = true -> Nat.ltb v u = false.
Proof.
  intros H. apply Nat.ltb_lt in H. apply Nat.ltb_ge. lia.
Defined.

Lemma by_length_transitive (u v w : nat) :
  Nat.ltb v u = false -> Nat.ltb w v = false -> Nat.ltb w u = false.
Proof.
  intros H1 H2. apply Nat.ltb_ge in H1, H2. apply Nat.ltb_ge. lia.
Defined.

Lemma add_spectra_key_order_witness :
  exists added,
    dict_keys
      (_spectra (fst (add_spectra spectra_dict (Some by_length)
                                  (@init Z_floats 0 0 false palette))))
    = [] ++ added
    /\ Permutation added ["total"; "s"; "pd"]
    /\ StronglySorted (key_ordered by_length) added.
Proof.
  apply (add_spectra_key_order (F := Z_floats) spectra_dict by_length
           (@init Z_floats 0 0 false palette)
           (fst (add_spectra spectra_dict (Some by_length)
                             (@init Z_floats 0 0 false palette)))
           by_length_asymmetric by_length_transitive).
  - simpl. repeat constructor; simpl; intuition discriminate.
  - intros l _ [].
  - reflexivity.
Defined.

Lemma add_spectra_keeps_earlier_witness :
  add_spectra ([("dos", dos)] ++ ("bad", no_y) :: [("xas", xas)]) None
              (@init Z_floats 0 0 false palette)
  = (fst (add_spectrum "dos" dos None (@init Z_floats 0 0 false palette)),
     Raise (ValueError
              ("spectrum of type=<class 'types.SimpleNamespace'> "
                 ++ "missing required attribute='y'"))).
Proof.
  destruct (add_spectra_keeps_earlier (F := Z_floats) [("dos", dos)] "bad"
              no_y [("xas", xas)] (@init Z_floats 0 0 false palette))
    as (self' & attribute & Hpre & [[_ Hx]|[-> _]] & Hraise & _).
  - repeat constructor; discriminate.
  - discriminate.
  - simpl. repeat constructor. intros [].
  - now right.
  - discriminate Hx.
  - vm_compute in Hpre. inversion Hpre. subst self'. exact Hraise.
Defined.

End MorePlotterScenarios.

(** * IEEE 754 binary64 coordinates *)

Module Binary64.

(** Python's [float] and numpy's [float64], as the kernel's binary64
    numbers; [idx] is converted as Python converts the [int] operand of
    [float * int] (exactly, for an index below 2^53). *)
Definition binary64 : Floats :=
  Build_Floats PrimFloat.float PrimFloat.zero PrimFloat.add PrimFloat.mul
    (fun idx => PrimFloat.of_uint63 (Uint63.of_Z (Z.of_nat idx))).

(** [a == b], or both are [nan]: what [numpy.array_equal] with
    [equal_nan=True] asks of two entries. *)
Definition same_number (a b : PrimFloat.float) : bool :=
  PrimFloat.eqb a b || (PrimFloat.is_nan a && PrimFloat.is_nan b).

Lemma SFeqb_refl (r : SpecFloat.spec_float) :
  r <> SpecFloat.S754_nan -> SpecFloat.SFeqb r r = true.
Proof.
  unfold SpecFloat.SFeqb.
  destruct r as [s|s| |s m e]; simpl; intros H.
  - reflexivity.
  - now destruct s.
  - now contradiction H.
  - rewrite Z.compare_refl, Pos.compare_cont_refl. now destruct s.
Qed.

Lemma is_finite_cases (s : PrimFloat.float) :
  PrimFloat.is_finite s = true ->
  exists sign,
    FloatOps.Prim2SF s = SpecFloat.S754_zero sign
    \/ exists m e, FloatOps.Prim2SF s = SpecFloat.S754_finite sign m e.
Proof.
  unfold PrimFloat.is_finite, PrimFloat.is_nan, PrimFloat.is_infinity.
  rewrite !FloatAxioms.eqb_spec, FloatAxioms.abs_spec.
  change (FloatOps.Prim2SF PrimFloat.infinity)
    with (SpecFloat.S754_infinity false).
  destruct (FloatOps.Prim2SF s) as [sx|sx| |sx m e]; simpl; intros H.
  - exists sx. now left.
  - destruct sx; discriminate.
  - discriminate.
  - exists sx. right. now exists m, e.
Qed.

Lemma same_number_spec (a b : PrimFloat.float) :
  FloatOps.Prim2SF a = FloatOps.Prim2SF b
  \/ (exists s t, FloatOps.Prim2SF a = SpecFloat.S754_zero s
                  /\ FloatOps.Prim2SF b = SpecFloat.S754_zero t) ->
  same_number a b = true.
Proof.
  unfold same_number, PrimFloat.is_nan. rewrite !FloatAxioms.eqb_spec.
  intros [H|(s & t & Ha & Hb)].
  - rewrite H.
    destruct (FloatOps.Prim2SF b) as [s|s| |s m e] eqn:E;
      try (rewrite SFeqb_refl by discriminate; reflexivity).
    reflexivity.
  - rewrite Ha, Hb. reflexivity.
Qed.

(** For a finite [s], adding [s * 0] gives the number that adding [0.0]
    gives: [s * 0] is [0.0] or [-0.0], and a sum can only differ in the
    sign of a zero. *)
Lemma same_number_shift (s v : PrimFloat.float) :
  PrimFloat.is_finite s = true ->
  same_number (@add binary64 v (@zero binary64))
              (@add binary64 v (@mul binary64 s (@of_int binary64 0))) = true.
Proof.
  intros Hs. apply is_finite_cases in Hs.
  change (same_number (PrimFloat.add v PrimFloat.zero)
            (PrimFloat.add v (PrimFloat.mul s PrimFloat.zero)) = true).
  apply same_number_spec.
  rewrite !FloatAxioms.add_spec, FloatAxioms.mul_spec.
  change (FloatOps.Prim2SF PrimFloat.zero) with (SpecFloat.S754_zero false).
  destruct Hs as [sx [Hs|(m & e & Hs)]]; rewrite Hs;
    destruct (FloatOps.Prim2SF v) as [sv|sv| |sv mv ev]; simpl;
      try (left; reflexivity);
      destruct sx, sv; simpl; eauto.
Qed.

End Binary64.

(** * Stacked mode: the baselines *)

Module StackedFacts.

Import Plotters.
Import PlottersFacts.
Import PlottersMore.

Section Stacked.
Context {F : Floats}.

(** The call [add_spectrum(label, spectrum, color)] for a spectrum that
    has the four attributes. *)
Definition call_of (a : curve * option mpl_color)
  : string * spectrum * option mpl_color :=
  (c_label (fst a), as_spectrum (fst a), snd a).

(** The [fill_between] call for the entry at position [idx], in the
    colour [col], from the baseline [base]. *)
Definition region (self : SpectrumPlotter)
           (e : nat * (curve * (mpl_color * operand))) : call :=
  let '(idx, (c, (col, base))) := e in
  fill_between (c_x c) base (shifted_y self idx c) col (c_label c) 3.

Lemma dict_set_absent {A : Type} (d : dict A) (k : string) (v : A) :
  ~ In k (dict_keys d) -> dict_set d k v = d ++ [(k, v)].
Proof.
  induction d as [|[k0 v0] d IH]; simpl; intros H; [reflexivity|].
  destruct (String.eqb k0 k) eqn:E.
  - apply String.eqb_eq in E. exfalso. apply H. now left.
  - rewrite IH; [reflexivity|]. intros Hin. apply H. now right.
Qed.

Lemma add_all_entries calls self self' :
  add_all calls self = (self', Ok tt) ->
  NoDup (map label_of calls) ->
  (forall l, In l (map label_of calls) ->
             ~ In l (dict_keys (_spectra self))) ->
  _spectra self'
  = _spectra self ++ map (fun c => (label_of c, snd (fst c))) calls.
Proof.
  revert self. induction calls as [|[[l sp] c] calls IH]; simpl;
    intros self H Hnd Hnew.
  - inversion H. now rewrite app_nil_r.
  - destruct (add_spectrum l sp c self) as [self1 [[]|e]] eqn:Hadd;
      [|discriminate].
    apply add_spectrum_ok in Hadd. destruct Hadd as [col [-> _]].
    inversion Hnd as [|? ? Hnotin Hnd']; subst.
    assert (Hl : ~ In l (dict_keys (_spectra self)))
      by (apply Hnew; now left).
    rewrite (IH _ H Hnd').
    + simpl. rewrite dict_set_absent by exact Hl.
      rewrite <- app_assoc. reflexivity.
    + intros l0 Hin. simpl. rewrite dict_keys_set_In. intros [H0| ->].
      * apply (Hnew l0); [now right|exact H0].
      * contradiction.
Qed.

Lemma add_all_settings calls self self' :
  add_all calls self = (self', Ok tt) ->
  stack self' = stack self /\ yshift self' = yshift self.
Proof.
  revert self. induction calls as [|[[l sp] c] calls IH]; simpl;
    intros self H.
  - inversion H. now split.
  - destruct (add_spectrum l sp c self) as [self1 [[]|e]] eqn:Hadd;
      [|discriminate].
    apply add_spectrum_ok in Hadd. destruct Hadd as [col [-> _]].
    apply (IH _ H).
Qed.

Lemma fills_regions self l :
  fills (concat (map (fill_calls self) l)) = map (region self) l.
Proof.
  induction l as [|[idx [c [col base]]] l IH]; simpl; [reflexivity|].
  now rewrite IH.
Qed.

Lemma fills_app (a b : list call) : fills (a ++ b) = fills a ++ fills b.
Proof. apply filter_app. Qed.

(** The calls after the loop are not [fill_between] calls. *)
Lemma get_plot_fills self xlim ylim :
  fills (fst (get_plot xlim ylim self))
  = fills (fst (draw_spectra self 0 (_spectra self) (Scalar zero) [])).
Proof.
  unfold get_plot. unfold dbind at 1.
  destruct (draw_spectra self 0 (_spectra self) (Scalar zero) [])
    as [ax [[]|e]]; [|reflexivity].
  unfold dbind, emit, dret.
  destruct xlim, ylim; simpl; rewrite !fills_app; simpl;
    now rewrite !app_nil_r.
Qed.

(** [base] after the loop has gone through entries with the values [yss]:
    [base = sp.y + base] for each, in order. *)
Fixpoint base_after (base : operand) (yss : list ndarray) : operand :=
  match yss with
  | [] => base
  | ys :: yss' => base_after (Array (plus ys base)) yss'
  end.

Lemma draw_fills_then self n :
  stack self = true ->
  forall cs cols unused idx base ax rest,
    skipn idx (colors self) = cols ++ unused ->
    List.length cols = List.length cs ->
    Forall (fun c => List.length (c_y c) = n) cs ->
    fits n base ->
    draw_spectra self idx (map as_item cs ++ rest) base ax
    = draw_spectra self (idx + List.length cs) rest
        (base_after base (map c_y cs))
        (ax ++ concat (map (fill_calls self)
                         (combine (seq idx (List.length cs))
                            (combine cs
                               (combine cols
                                  (baselines base (map c_y cs))))))).
Proof.
  intros Hs. induction cs as [|c cs IH];
    intros cols unused idx base ax rest Hk Hl Hn Hfit.
  - simpl. now rewrite Nat.add_0_r, app_nil_r.
  - destruct cols as [|col cols]; [discriminate|].
    simpl in Hk. apply skipn_cons_nth in Hk. destruct Hk as [Hc Hk].
    pose proof (Forall_inv Hn) as Hlen. simpl in Hlen.
    pose proof (Forall_inv_tail Hn) as Hn'.
    assert (Hl' : List.length cols = List.length cs) by (simpl in Hl; lia).
    assert (Hfit0 : fits (List.length (c_y c)) base) by now rewrite Hlen.
    assert (Hfit' : fits n (Array (plus (c_y c) base)))
      by (simpl; now rewrite plus_length).
    cbn [map as_item draw_spectra fst snd app]. unfold dbind at 1.
    change (c_label c, as_spectrum c) with (as_item c).
    unfold as_item at 1.
    rewrite (draw_entry_fill self idx c col base ax Hs Hc Hfit0).
    rewrite (IH cols unused (S idx) _ _ rest Hk Hl' Hn' Hfit').
    cbn [List.length seq combine map concat baselines base_after].
    rewrite <- app_assoc, Nat.add_succ_r. reflexivity.
Qed.

(** The entry drawn last: its [fill_between] call is made before
    anything that can raise for it. *)
Lemma draw_last_fill self idx label sp base ax xs ys col :
  stack self = true -> x sp = Some xs -> y sp = Some ys ->
  nth_error (colors self) idx = Some col ->
  fills (fst (draw_spectra self idx [(label, sp)] base ax))
  = fills ax
      ++ [fill_between xs base (map (fun v => add v (shift self idx)) ys)
                       col label 3].
Proof.
  intros Hs Hx Hy Hc. cbn [draw_spectra]. unfold dbind at 1.
  unfold draw_entry, dbind, lift, emit, dret, color_at.
  rewrite Hs, Hx, Hy. cbn -[np_add fills]. rewrite Hc, np_add_scalar.
  cbn -[np_add fills].
  destruct (np_add ys base) as [b|e]; cbn -[np_add fills];
    [|now rewrite fills_app].
  destruct (XLABEL sp), (YLABEL sp); cbn -[np_add fills];
    rewrite !fills_app; simpl; now rewrite ?app_nil_r.
Qed.

(** What [get_plot] draws in stacked mode, for any arithmetic. *)
Lemma stacked_fills
      xshift yshift palette front label sp color self n xlim ylim :
  add_all (map call_of front ++ [(label, sp, color)])
          (init xshift yshift true palette) = (self, Ok tt) ->
  NoDup (map (fun a => c_label (fst a)) front ++ [label]) ->
  Forall (fun a => List.length (c_y (fst a)) = n) front ->
  exists xs ys cols col,
    x sp = Some xs /\ y sp = Some ys
    /\ colors self = cols ++ [col]
    /\ fills (fst (get_plot xlim ylim self))
       = map (region self)
             (combine (seq 0 (List.length front))
                (combine (map fst front)
                   (combine cols
                      (baselines (Scalar zero)
                                 (map (fun a => c_y (fst a)) front)))))
         ++ [fill_between xs
               (base_after (Scalar zero) (map (fun a => c_y (fst a)) front))
               (map (fun v => add v (mul yshift (of_int (List.length front))))
                    ys)
               col label 3]
    /\ forall a1,
         front = [a1] ->
         exists col1,
           cols = [col1]
           /\ fills (fst (get_plot xlim ylim self))
              = [fill_between (c_x (fst a1)) (Scalar zero)
                   (map (fun v => add v (mul yshift (of_int 0)))
                        (c_y (fst a1)))
                   col1 (c_label (fst a1)) 3;
                 fill_between xs
                   (Array (map (fun v => add v zero) (c_y (fst a1))))
                   (map (fun v => add v (mul yshift (of_int 1))) ys)
                   col label 3].
Proof.
  intros H Hnd Hn.
  destruct (add_all_settings _ _ _ H) as [Hstack Hyshift]. simpl in *.
  pose proof H as H0. apply add_all_app in H0.
  destruct H0 as (mid & Hmid & Hlast). simpl in Hlast.
  destruct (add_spectrum label sp color mid) as [s1 [[]|e]] eqn:Hadd;
    [|discriminate].
  inversion Hlast; subst s1. clear Hlast.
  apply add_spectrum_ok in Hadd. destruct Hadd as (col & Hself & Hx & Hy & _).
  destruct (x sp) as [xs|] eqn:Ex; [|congruence].
  destruct (y sp) as [ys|] eqn:Ey; [|congruence].
  destruct (add_all_colors _ _ _ Hmid) as [cols [Hcols Hlen]].
  simpl in Hcols. rewrite length_map in Hlen.
  apply NoDup_remove in Hnd. rewrite app_nil_r in Hnd.
  destruct Hnd as [Hnd Hnew].
  assert (Hsp : _spectra mid = map as_item (map fst front)).
  { rewrite (add_all_entries _ _ _ Hmid).
    - simpl. rewrite !map_map. reflexivity.
    - unfold label_of. rewrite map_map. exact Hnd.
    - intros l _ []. }
  assert (Hspectra : _spectra self
                     = map as_item (map fst front) ++ [(label, sp)]).
  { rewrite Hself. simpl. rewrite dict_set_absent; [now rewrite Hsp|].
    rewrite Hsp. unfold dict_keys. rewrite !map_map. exact Hnew. }
  assert (Hcolors : colors self = cols ++ [col])
    by (rewrite Hself; simpl; now rewrite Hcols).
  assert (Hfills : fills (fst (get_plot xlim ylim self))
       = map (region self)
             (combine (seq 0 (List.length front))
                (combine (map fst front)
                   (combine cols
                      (baselines (Scalar zero)
                                 (map (fun a => c_y (fst a)) front)))))
         ++ [fill_between xs
               (base_after (Scalar zero) (map (fun a => c_y (fst a)) front))
               (map (fun v => add v (mul yshift (of_int (List.length front))))
                    ys)
               col label 3]).
  { rewrite get_plot_fills, Hspectra.
    rewrite (draw_fills_then self n Hstack (map fst front) cols [col] 0
                             (Scalar zero) [] [(label, sp)]).
    - rewrite (draw_last_fill self _ label sp _ _ xs ys col Hstack Ex Ey).
      + simpl app. rewrite fills_regions, length_map, map_map.
        unfold shift. now rewrite Hyshift.
      + simpl. rewrite length_map, Hcolors, nth_error_app2 by lia.
        now rewrite Hlen, Nat.sub_diag.
    - simpl. exact Hcolors.
    - now rewrite length_map.
    - rewrite Forall_map. exact Hn.
    - exact I. }
  exists xs, ys, cols, col. repeat split; try assumption.
  intros a1 ->. rewrite Hfills.
  destruct cols as [|col1 [|col2 cols]]; try discriminate.
  exists col1. split; [reflexivity|].
  cbn [List.length seq map combine baselines base_after region fst snd
       plus app].
  unfold shifted_y, shift. rewrite Hyshift. reflexivity.
Qed.
End Stacked.

Import Binary64.

Lemma Forall2_map_same {A B : Type} (R : B -> B -> Prop) (f g : A -> B) l :
  (forall v, R (f v) (g v)) -> Forall2 R (map f l) (map g l).
Proof. intros H. induction l; simpl; constructor; auto. Qed.

(** C9: a new plotter in stacked mode with a finite [yshift] and binary64
    coordinates, filled by calls with pairwise distinct labels that all
    returned; the spectra before the last one have the four attributes
    [get_plot] reads and [y] arrays of one length.  [get_plot] makes one
    [fill_between] call per spectrum, in insertion order.  The baseline
    of the first is [0.0]; the baseline of each later one is the [y] of
    the spectrum before it added to that spectrum's baseline, so the
    baselines accumulate the values, without [yshift], in insertion
    order.  With two spectra the baseline of the second region is the
    first spectrum's values plus [0.0], and the upper edge of the first
    region, as drawn, is the first spectrum's values plus [yshift * 0]:
    entry by entry the two are the same number. *)
Theorem stacked_baseline_is_first_curve
        xshift yshift palette front label sp color self n xlim ylim :
  add_all (map call_of front ++ [(label, sp, color)])
          (@init binary64 xshift yshift true palette) = (self, Ok tt) ->
  NoDup (map (fun a => c_label (fst a)) front ++ [label]) ->
  Forall (fun a => List.length (c_y (fst a)) = n) front ->
  PrimFloat.is_finite yshift = true ->
  exists xs ys cols col,
    x sp = Some xs /\ y sp = Some ys
    /\ colors self = cols ++ [col]
    /\ fills (fst (get_plot xlim ylim self))
       = map (region self)
             (combine (seq 0 (List.length front))
                (combine (map fst front)
                   (combine cols
                      (baselines (Scalar zero)
                                 (map (fun a => c_y (fst a)) front)))))
         ++ [fill_between xs
               (base_after (Scalar zero) (map (fun a => c_y (fst a)) front))
               (map (fun v => add v (mul yshift (of_int (List.length front))))
                    ys)
               col label 3]
    /\ forall a1,
         front = [a1] ->
         exists col1,
           cols = [col1]
           /\ fills (fst (get_plot xlim ylim self))
              = [fill_between (c_x (fst a1)) (Scalar zero)
                   (map (fun v => add v (mul yshift (of_int 0)))
                        (c_y (fst a1)))
                   col1 (c_label (fst a1)) 3;
                 fill_between xs
                   (Array (map (fun v => add v zero) (c_y (fst a1))))
                   (map (fun v => add v (mul yshift (of_int 1))) ys)
                   col label 3]
           /\ Forall2 (fun b c => same_number b c = true)
                      (map (fun v => add v zero) (c_y (fst a1)))
                      (map (fun v => add v (mul yshift (of_int 0)))
                           (c_y (fst a1))).
Proof.
  intros H Hnd Hn Hfin.
  destruct (stacked_fills xshift yshift palette front label sp color self n
                          xlim ylim H Hnd Hn)
    as (xs & ys & cols & col & Hx & Hy & Hcols & Hfills & Htwo).
  exists xs, ys, cols, col. repeat split; try assumption.
  intros a1 Hfront. destruct (Htwo a1 Hfront) as (col1 & Hcol1 & Hfills2).
  exists col1. repeat split; try assumption.
  apply Forall2_map_same. intros v. now apply same_number_shift.
Qed.

End StackedFacts.

(** * Stacked plotter scenarios, with binary64 coordinates *)

Module StackedScenarios.

Import PrimFloat.
Import Plotters.
Import PlottersFacts.
Import PlottersMore.
Import Binary64.
Import StackedFacts.

#[local] Existing Instance binary64.

Definition palette64 : list (@mpl_color binary64) :=
  [ColorStr "red"; ColorStr "blue"; ColorStr "green"].

Definition dos64 : @curve binary64 :=
  @Build_curve binary64 "dos" "pymatgen.electronic_structure.dos.Dos"
    [0; 1; 2]%float [5; 6; 7]%float "Energy" "Density".

Definition xas64 : @curve binary64 :=
  @Build_curve binary64 "xas" "pymatgen.analysis.xas.spectrum.XAS"
    [0; 1; 2]%float [10; 20; 30]%float "Energy" "Intensity".

(** An object with [x] and [y] and no axis labels. *)
Definition bare64 : @spectrum binary64 :=
  @Build_spectrum binary64 "types.SimpleNamespace"
    (Some [0; 1; 2]%float) (Some [0.5; 0.25; -0]%float) None None.

Definition two_adds
  : list (string * @spectrum binary64 * option (@mpl_color binary64)) :=
  [call_of (dos64, None); call_of (xas64, Some (ColorStr "k--"))].

(** [SpectrumPlotter(yshift=-100.0, stack=True)] after the two calls. *)
Definition stacked_down : @SpectrumPlotter binary64 :=
  fst (add_all two_adds
               (@init binary64 0%float (-100)%float true palette64)).

(** [SpectrumPlotter(yshift=100.0, stack=True)] after the two calls and a
    third one, whose object has no axis labels. *)
Definition stacked_up : @SpectrumPlotter binary64 :=
  fst (add_all (two_adds ++ [("bare", bare64, None)])
               (@init binary64 0%float 100%float true palette64)).

(** [SpectrumPlotter(yshift=float("inf"), stack=True)] after the two
    calls. *)
Definition stacked_inf : @SpectrumPlotter binary64 :=
  fst (add_all two_adds (@init binary64 0%float infinity true palette64)).

(** Two spectra with [yshift = -100.0]; three with [yshift = 100.0], the
    third without axis labels. *)
Lemma stacked_baseline_is_first_curve_witness :
  fills (fst (get_plot None None stacked_down))
  = [fill_between [0; 1; 2]%float (Scalar 0%float) [5; 6; 7]%float
                  (ColorStr "blue") "dos" 3;
     fill_between [0; 1; 2]%float (Array [5; 6; 7]%float)
                  [-90; -80; -70]%float (ColorStr "k--") "xas" 3]
  /\ fills (fst (get_plot None None stacked_up))
     = [fill_between [0; 1; 2]%float (Scalar 0%float) [5; 6; 7]%float
                     (ColorStr "blue") "dos" 3;
        fill_between [0; 1; 2]%float (Array [5; 6; 7]%float)
                     [110; 120; 130]%float (ColorStr "k--") "xas" 3;
        fill_between [0; 1; 2]%float (Array [15; 26; 37]%float)
                     [200.5; 200.25; 200]%float (ColorStr "red") "bare" 3].
Proof.
  split.
  - destruct (stacked_baseline_is_first_curve
                0%float (-100)%float palette64 [(dos64, None)]
                "xas" (as_spectrum xas64) (Some (ColorStr "k--"))
                stacked_down 3 None None)
      as (xs & ys & cols & col & Hx & Hy & Hcols & _ & Htwo).
    + reflexivity.
    + simpl. repeat constructor; simpl; intuition discriminate.
    + repeat constructor.
    + reflexivity.
    + destruct (Htwo _ eq_refl) as (col1 & -> & Hfills & _).
      inversion Hx. inversion Hy. subst xs ys.
      inversion Hcols. subst col1 col. exact Hfills.
  - destruct (stacked_baseline_is_first_curve
                0%float 100%float palette64
                [(dos64, None); (xas64, Some (ColorStr "k--"))]
                "bare" bare64 None stacked_up 3 None None)
      as (xs & ys & cols & col & Hx & Hy & Hcols & Hfills & _).
    + reflexivity.
    + simpl. repeat constructor; simpl; intuition discriminate.
    + repeat constructor.
    + reflexivity.
    + inversion Hx. inversion Hy. subst xs ys.
      assert (Hc : cols ++ [col]
                   = [ColorStr "blue"; ColorStr "k--"] ++ [ColorStr "red"])
        by (rewrite <- Hcols; reflexivity).
      apply app_inj_tail in Hc. destruct Hc as [-> ->].
      rewrite Hfills. reflexivity.
Defined.

(** C9, the input on which the claim as stated fails: with
    [yshift = float("inf")] the product [yshift * 0] is [nan], so the
    first region is drawn up to [nan] throughout, while the baseline of
    the second is the first spectrum's values, [5.0, 6.0, 7.0]; no entry
    of the one is the number at its place in the other. *)
Lemma stacked_baseline_is_first_curve_counterexample :
  is_finite (yshift stacked_inf) = false
  /\ shift stacked_inf 0 = nan
  /\ fills (fst (get_plot None None stacked_inf))
     = [fill_between [0; 1; 2]%float (Scalar 0%float) [nan; nan; nan]
                     (ColorStr "blue") "dos" 3;
        fill_between [0; 1; 2]%float (Array [5; 6; 7]%float)
                     [infinity; infinity; infinity]
                     (ColorStr "k--") "xas" 3]
  /\ map (fun p => same_number (fst p) (snd p))
         (combine [5; 6; 7]%float [nan; nan; nan])
     = [false; false; false].
Proof. repeat split; vm_compute; reflexivity. Qed.

End StackedScenarios.
